(** * flow-pds: the account registry, the key rotator and the sequence-number
      allocator of [service/flow_helpers/account.go]

    The Go package keeps three process-wide variables ([accounts],
    [seqNumMap] and the objects the registry points to) and four operations
    on them ([GetAccount], [KeyIndex], [GetProposalKey], [getSeqNum]).  They
    are embedded here as functions on an explicit [State], in a small monad
    whose second outcome is a Go run-time panic. *)

From Stdlib Require Import ZArith Lia String Sorted.
From stdpp Require Import gmap list fin_maps strings.

Local Open Scope Z_scope.

(** ** Go's primitive operations, as far as the package uses them *)

Module Go.

(** [uint64] arithmetic wraps around silently. *)
Definition uint64_modulus : Z := 2 ^ 64.
Definition max_uint64 : Z := uint64_modulus - 1.
Definition wrap_uint64 (z : Z) : Z := z mod uint64_modulus.
Definition is_uint64 (z : Z) : Prop := 0 <= z < uint64_modulus.

(** [int] is the 64-bit signed integer of the platforms the service is
    built for; addition wraps around in two's complement. *)
Definition wrap_int (z : Z) : Z := (z + 2 ^ 63) mod 2 ^ 64 - 2 ^ 63.
Definition is_int (z : Z) : Prop := - 2 ^ 63 <= z < 2 ^ 63.

(** The run-time panics the package can raise. *)
Inductive panic : Type :=
| InvalidArgumentToIntn   (* rand.Intn(n) with n <= 0 *)
| IndexOutOfRange         (* s[i] with i < 0 or len(s) <= i *)
| IntegerDivideByZero     (* x % 0 *)
| NilPointerDereference   (* p.f with p == nil *)
| AssignmentToNilMap.     (* m[k] = v with m == nil *)

(** [len(s)] *)
Definition len {A} (s : list A) : Z := Z.of_nat (length s).

(** [s[i]]: [None] stands for the index-out-of-range panic. *)
Definition index {A} (s : list A) (i : Z) : option A :=
  if i <? 0 then None else s !! Z.to_nat i.

(** [x % y] on [int]: the remainder truncates towards zero; [None] stands
    for the division-by-zero panic. *)
Definition rem (x y : Z) : option Z :=
  if y =? 0 then None else Some (Z.rem x y).

(** [rand.Intn(n)] of math/rand, which is not part of the repository: it
    panics for [n <= 0] and otherwise reduces a non-negative value [draw]
    of the generator modulo [n].  The generator having just been seeded
    with the clock, [draw] is an input of the model. *)
Definition rand_Intn (draw n : Z) : option Z :=
  if n <=? 0 then None else Some (draw mod n).

End Go.

Import Go.

(** ** Data model *)

(** [flow.Address] is an array of 8 bytes; the package only compares
    addresses and uses them as map keys, so an address is the number its
    bytes spell. *)
Abbreviation flow_Address := N (only parsing).

(** The two fields of [flow.AccountKey] the package reads and writes. *)
Record flow_AccountKey : Type := mkAccountKey {
  Index : Z;             (* int *)
  SequenceNumber : Z     (* uint64 *)
}.

(** [flow.Account], as returned by the remote ledger: its list of keys.  The
    client builds the list itself, without nil elements, so the keys are held
    by value. *)
Record flow_Account : Type := mkFlowAccount {
  Keys : list flow_AccountKey
}.

(** Go's [error] values: the error reported by the ledger client, and the
    wrapping [fmt.Errorf("...: %w", err)] of [GetProposalKey]. *)
Inductive error : Type :=
| ClientError (msg : string)
| Errorf (prefix : string) (wrapped : error).

(** The answer of [flowClient.GetAccount]: a possibly nil pointer and a
    possibly nil error. *)
Definition QueryResult : Type := option flow_Account * option error.

(** [type Account struct] *)
Record Account : Type := mkAccount {
  Address : flow_Address;
  PrivateKeyInHex : string;
  KeyIndexes : list Z;
  nextKeyIndexIndex : Z
}.

(** Pointers to [Account] objects. *)
Abbreviation loc := positive (only parsing).

(** The package-level variables.  [None] is a nil map.  [accounts] holds
    pointers, so the objects live in [heap]; the inner maps of [seqNumMap]
    are only reachable through it and are held by value. *)
Record State : Type := mkState {
  accounts : option (gmap flow_Address loc);
  heap : gmap loc Account;
  seqNumMap : option (gmap flow_Address (gmap Z Z))
}.

Definition set_accounts (v : option (gmap flow_Address loc)) (st : State) : State :=
  {| accounts := v; heap := heap st; seqNumMap := seqNumMap st |}.

Definition set_heap (v : gmap loc Account) (st : State) : State :=
  {| accounts := accounts st; heap := v; seqNumMap := seqNumMap st |}.

Definition set_seqNumMap (v : option (gmap flow_Address (gmap Z Z))) (st : State) : State :=
  {| accounts := accounts st; heap := heap st; seqNumMap := v |}.

(** The state of a freshly started process. *)
Definition initial_state : State :=
  {| accounts := None; heap := ∅; seqNumMap := None |}.

(** ** The monad of the operations: state and panics *)

(** A call either returns a value or panics; both leave a state behind (the
    deferred [Unlock]s run in either case, and a recovered panic exposes the
    state it left). *)
Inductive outcome (A : Type) : Type :=
| Ok (a : A) (st : State)
| Panic (p : panic) (st : State).
Arguments Ok {A} a st.
Arguments Panic {A} p st.

Definition M (A : Type) : Type := State -> outcome A.

Definition ret {A} (a : A) : M A := fun st => Ok a st.

Definition bind {A B} (k : A -> M B) (m : M A) : M B :=
  fun st => match m st with
            | Ok a st' => k a st'
            | Panic p st' => Panic p st'
            end.

(** stdpp's monad notations: [x ← m; k] and [m;; k]. *)
#[export] Instance M_ret : MRet M := @ret.
#[export] Instance M_bind : MBind M := @bind.

Definition raise {A} (p : panic) : M A := fun st => Panic p st.

Definition gets {A} (f : State -> A) : M A := fun st => Ok (f st) st.

Definition modify (f : State -> State) : M unit := fun st => Ok tt (f st).

(** [o] or else panic with [p]. *)
Definition or_panic {A} (p : panic) (o : option A) : M A :=
  match o with Some a => ret a | None => raise p end.

(** [*p] for a pointer to an [Account]; a pointer without an object
    behaves as nil. *)
Definition deref (p : loc) : M Account :=
  fun st => or_panic NilPointerDereference (heap st !! p) st.

Definition state_of {A} (o : outcome A) : State :=
  match o with Ok _ st => st | Panic _ st => st end.

(** ** The operations *)

(** *** [GetAccount] (account.go, lines 30-56) *)

Definition GetAccount (address : flow_Address) (privateKeyInHex : string)
    (keyIndexes : list Z) (draw : Z) : M loc :=
  (* if accounts == nil { accounts = make(...) } *)
  modify (fun st => set_accounts (Some (default ∅ (accounts st))) st);;
  accs ← gets (fun st => default ∅ (accounts st));
  match accs !! address with
  | Some existing => ret existing
  | None =>
      (* rand.Seed(time.Now().UnixNano()); randomIndex := rand.Intn(len(keyIndexes)) *)
      randomIndex ← or_panic InvalidArgumentToIntn (rand_Intn draw (len keyIndexes));
      (* new := &Account{...} *)
      new ← gets (fun st => fresh (dom (heap st)));
      modify (fun st => set_heap (<[new := {| Address := address;
                                              PrivateKeyInHex := privateKeyInHex;
                                              KeyIndexes := keyIndexes;
                                              nextKeyIndexIndex := randomIndex |}]> (heap st)) st);;
      (* accounts[address] = new *)
      modify (set_accounts (Some (<[address := new]> accs)));;
      ret new
  end.

(** *** [KeyIndex] (lines 60-69) *)

(** The body of the method, on the [Account] the receiver points to: the
    returned index and the object after the call. *)
Definition rotate_KeyIndex (a : Account) : panic + Z * Account :=
  match index (KeyIndexes a) (nextKeyIndexIndex a) with
  | None => inl IndexOutOfRange
  | Some i =>
      match rem (wrap_int (nextKeyIndexIndex a + 1)) (len (KeyIndexes a)) with
      | None => inl IntegerDivideByZero
      | Some next =>
          inr (i, {| Address := Address a;
                     PrivateKeyInHex := PrivateKeyInHex a;
                     KeyIndexes := KeyIndexes a;
                     nextKeyIndexIndex := next |})
      end
  end.

(** [func (a *Account) KeyIndex() int]: the receiver is a pointer, the
    cursor of the object it points to is advanced in place. *)
Definition KeyIndex (a : loc) : M Z :=
  obj ← deref a;
  match rotate_KeyIndex obj with
  | inl p => raise p
  | inr (i, obj') =>
      modify (fun st => set_heap (<[a := obj']> (heap st)) st);;
      ret i
  end.

(** *** [getSeqNum] (lines 93-112) *)

(** The expression [seqNumMap[address][keyIndex]] together with its [ok]:
    the cache entry of the pair, if any.  Reading a nil map, or a key that
    is missing, finds nothing. *)
Definition cached (st : State) (address : flow_Address) (keyIndex : Z) : option Z :=
  m ← seqNumMap st; inner ← m !! address; inner !! keyIndex.

(** Lines 97-103: the two lazy initialisations. *)
Definition seqNum_init (address : flow_Address) : M unit :=
  (* if seqNumMap == nil { seqNumMap = make(...) } *)
  modify (fun st => set_seqNumMap (Some (default ∅ (seqNumMap st))) st);;
  (* if seqNumMap[address] == nil { seqNumMap[address] = make(...) } *)
  modify (fun st =>
            let m := default ∅ (seqNumMap st) in
            match m !! address with
            | Some _ => st
            | None => set_seqNumMap (Some (<[address := ∅]> m)) st
            end).

(** The statement [seqNumMap[address][keyIndex] = v]: an assignment to an
    entry of a nil map panics. *)
Definition seqNum_assign (address : flow_Address) (keyIndex v : Z) : M unit :=
  fun st =>
    match seqNumMap st with
    | None => Panic AssignmentToNilMap st
    | Some m =>
        match m !! address with
        | None => Panic AssignmentToNilMap st
        | Some inner =>
            Ok tt (set_seqNumMap (Some (<[address := <[keyIndex := v]> inner]> m)) st)
        end
    end.

(** The statement [seqNumMap[address][keyIndex]++]: the entry is read (zero
    when missing), one is added to it as a [uint64], and the sum is
    assigned. *)
Definition seqNum_increment (address : flow_Address) (keyIndex : Z) : M unit :=
  cur ← gets (fun st => cached st address keyIndex);
  seqNum_assign address keyIndex (wrap_uint64 (default 0 cur + 1)).

Definition getSeqNum (address : flow_Address) (key : flow_AccountKey) : M Z :=
  seqNum_init address;;
  (* if prev, ok := seqNumMap[address][key.Index]; ok && prev >= key.SequenceNumber *)
  entry ← gets (fun st => cached st address (Index key));
  match entry with
  | Some prev =>
      if SequenceNumber key <=? prev
      then seqNum_increment address (Index key)
      else seqNum_assign address (Index key) (SequenceNumber key)
  | None => seqNum_assign address (Index key) (SequenceNumber key)
  end;;
  (* return seqNumMap[address][key.Index] *)
  v ← gets (fun st => cached st address (Index key));
  mret (default 0 v).

(** *** [GetProposalKey] (lines 71-79) *)

Definition with_SequenceNumber (n : Z) (k : flow_AccountKey) : flow_AccountKey :=
  {| Index := Index k; SequenceNumber := n |}.

(** [func (a Account) GetProposalKey(...)]: the receiver is a VALUE, so [a]
    is a copy of the caller's object and [a.KeyIndex()] advances the cursor
    of that copy, which is dropped when the call returns.  [flowClient] is
    the remote query.  In [account.Keys[a.KeyIndex()]] the method call is
    evaluated before the slice is loaded. *)
Definition GetProposalKey (a : Account) (flowClient : flow_Address -> QueryResult)
  : M (option flow_AccountKey * option error) :=
  (* account, err := flowClient.GetAccount(ctx, a.Address) *)
  let '(account, err) := flowClient (Address a) in
  (* k := account.Keys[a.KeyIndex()] *)
  i ← match rotate_KeyIndex a with
      | inl p => raise p
      | inr (i, _) => ret i
      end;
  account ← or_panic NilPointerDereference account;
  k ← or_panic IndexOutOfRange (index (Keys account) i);
  match err with
  | Some err =>
      ret (None, Some (Errorf "error in flow_helpers.Account.GetProposalKey" err))
  | None =>
      (* k.SequenceNumber = getSeqNum(a.Address, k) *)
      n ← getSeqNum (Address a) k;
      ret (Some (with_SequenceNumber n k), None)
  end.

(** The call [acct.GetProposalKey(...)] on a pointer from the registry:
    Go dereferences the pointer and passes the object by value. *)
Definition GetProposalKey_of (acct : loc) (flowClient : flow_Address -> QueryResult)
  : M (option flow_AccountKey * option error) :=
  a ← deref acct;
  GetProposalKey a flowClient.

(** *** [GetSigner] (lines 81-87) *)

(** [func (a Account) GetSigner() (crypto.Signer, error)].  The two functions
    of the crypto package it calls, [crypto.DecodePrivateKeyHex] at
    [crypto.ECDSA_P256] and [crypto.NewNaiveSigner] at [crypto.SHA3_256],
    are not part of the repository and are taken as they come. *)
Definition GetSigner {PrivateKey Signer : Type}
    (DecodePrivateKeyHex : string -> PrivateKey + error)
    (NewNaiveSigner : PrivateKey -> Signer)
    (a : Account) : option Signer * option error :=
  (* p, err := crypto.DecodePrivateKeyHex(crypto.ECDSA_P256, a.PrivateKeyInHex) *)
  match DecodePrivateKeyHex (PrivateKeyInHex a) with
  | inr err => (None, Some (Errorf "error in flow_helpers.Account.GetSigner" err))
  | inl p => (Some (NewNaiveSigner p), None)
  end.

(** Running a computation from a state. *)
Definition run {A} (m : M A) (st : State) : outcome A := m st.

(** ** Reading and writing the sequence cache *)

(** The two maps are there for [address]: lines 97-103 have run. *)
Definition seqNum_ready (st : State) (address : flow_Address) : Prop :=
  exists m inner, seqNumMap st = Some m /\ m !! address = Some inner.

(** The state [seqNumMap[address][keyIndex] = v] leaves. *)
Definition assigned (address : flow_Address) (keyIndex v : Z) (st : State) : State :=
  let m := default ∅ (seqNumMap st) in
  set_seqNumMap (Some (<[address := <[keyIndex := v]> (default ∅ (m !! address))]> m)) st.

(** The state lines 97-103 leave. *)
Definition initialised (address : flow_Address) (st : State) : State :=
  let m := default ∅ (seqNumMap st) in
  set_seqNumMap (Some (match m !! address with
                       | Some _ => m
                       | None => <[address := ∅]> m
                       end)) st.

(** The value a call hands out, from the entry it finds and the remote
    sequence number. *)
Definition allocated (entry : option Z) (remote : Z) : Z :=
  match entry with
  | Some prev => if remote <=? prev then wrap_uint64 (prev + 1) else remote
  | None => remote
  end.

(** The state a call leaves: the entry of the pair holds the value handed
    out, and nothing else is touched. *)
Definition getSeqNum_state (address : flow_Address) (key : flow_AccountKey) (st : State) : State :=
  let m := default ∅ (seqNumMap st) in
  let inner := default ∅ (m !! address) in
  let v := allocated (inner !! Index key) (SequenceNumber key) in
  set_seqNumMap (Some (<[address := <[Index key := v]> inner]> m)) st.

(** ** Successive calls to the allocator for one pair *)

(** What one call did: the entry it found, the remote sequence number it
    was given, the value it handed out. *)
Record Allocation : Type := mkAllocation {
  found : option Z;
  remote : Z;
  handed : Z
}.

(** [getSeqNum] called once per element of [remotes], in order, for the pair
    [(address, keyIndex)]; the harness reads the entry before each call. *)
Fixpoint allocations (address : flow_Address) (keyIndex : Z) (remotes : list Z)
  : M (list Allocation) :=
  match remotes with
  | [] => mret []
  | r :: rs =>
      c ← gets (fun st => cached st address keyIndex);
      v ← getSeqNum address {| Index := keyIndex; SequenceNumber := r |};
      log ← allocations address keyIndex rs;
      mret ({| found := c; remote := r; handed := v |} :: log)
  end.

(** A log whose calls follow one another on the same entry, starting from
    the entry [c]. *)
Fixpoint chained (c : option Z) (log : list Allocation) : Prop :=
  match log with
  | [] => True
  | e :: log' =>
      found e = c /\ handed e = allocated c (remote e) /\
      chained (Some (handed e)) log'
  end.

(** A state whose cache holds 5 for the pair (address 1, key index 0). *)
Definition state_cached_5 : State :=
  {| accounts := None; heap := ∅; seqNumMap := Some {[ 1%N := {[ 0 := 5 ]} ]} |}.

(** ** Reading the registry *)

(** The pointer the registry holds for [address], if any: what
    [existing, ok := accounts[address]] reads. *)
Definition registered (st : State) (address : flow_Address) : option loc :=
  accs ← accounts st; accs !! address.

(** The cursor of an [Account] points into its key-index list. *)
Definition in_bounds (obj : Account) : Prop :=
  0 <= nextKeyIndexIndex obj < len (KeyIndexes obj).

(** ** Successive calls to the rotator of one [Account] *)

(** The list positions paired with the key indexes stored there, counting
    from [p]. *)
Fixpoint slots_from (p : Z) (keyIndexes : list Z) : list (Z * Z) :=
  match keyIndexes with
  | [] => []
  | i :: rest => (p, i) :: slots_from (p + 1) rest
  end.

Definition slots (keyIndexes : list Z) : list (Z * Z) := slots_from 0 keyIndexes.

(** [KeyIndex] called [n] times on the object [a] points to; the harness
    reads the cursor before each call and logs it with the index returned. *)
Fixpoint rotations (a : loc) (n : nat) : M (list (Z * Z)) :=
  match n with
  | O => mret []
  | S n' =>
      obj ← deref a;
      i ← KeyIndex a;
      log ← rotations a n';
      mret ((nextKeyIndexIndex obj, i) :: log)
  end.

(** The object [obj] with its cursor moved to [c]. *)
Definition with_cursor (c : Z) (obj : Account) : Account :=
  {| Address := Address obj; PrivateKeyInHex := PrivateKeyInHex obj;
     KeyIndexes := KeyIndexes obj; nextKeyIndexIndex := c |}.

(** The log of [n] calls that start at cursor [c] and go round the list:
    call number [j] is made at position [(c + j) mod len] and returns the
    key index stored there. *)
Definition round_robin (c : Z) (keyIndexes : list Z) (n : nat) : list (Z * Z) :=
  (fun j : nat =>
     let pos := (c + Z.of_nat j) mod len keyIndexes in
     (pos, default 0 (keyIndexes !! Z.to_nat pos))) <$> seq 0 n.

(** How many calls of a log were made at the list position [pos]. *)
Definition visits (pos : Z) (log : list (Z * Z)) : nat :=
  length (filter (fun e => e.1 = pos) log).

(** ** Arbitrary sequences of calls *)

(** One call of an operation of the package, with its arguments. *)
Inductive Call : Type :=
| Call_GetAccount (address : flow_Address) (privateKeyInHex : string)
    (keyIndexes : list Z) (draw : Z)
| Call_KeyIndex (a : loc)
| Call_GetProposalKey (acct : loc) (flowClient : flow_Address -> QueryResult)
| Call_getSeqNum (address : flow_Address) (key : flow_AccountKey).

(** The state a call leaves, whether it returns or panics. *)
Definition exec (c : Call) (st : State) : State :=
  match c with
  | Call_GetAccount address privateKeyInHex keyIndexes draw =>
      state_of (GetAccount address privateKeyInHex keyIndexes draw st)
  | Call_KeyIndex a => state_of (KeyIndex a st)
  | Call_GetProposalKey acct flowClient => state_of (GetProposalKey_of acct flowClient st)
  | Call_getSeqNum address key => state_of (getSeqNum address key st)
  end.

Definition exec_all (cs : list Call) (st : State) : State :=
  foldl (fun st c => exec c st) st cs.

(** A state with one [Account] object, at pointer 1, its cursor at 2. *)
Definition state_one_account : State :=
  {| accounts := Some {[ 1%N := 1%positive ]};
     heap := {[ 1%positive := {| Address := 1%N; PrivateKeyInHex := "key";
                                 KeyIndexes := [4; 5; 6];
                                 nextKeyIndexIndex := 2 |} ]};
     seqNumMap := None |}.

(** ** Concurrent calls of [getSeqNum] *)

(** Goroutines that call [getSeqNum] concurrently share [seqNumMap] and the
    mutex [seqNumLock].  A goroutine takes one step at a time: it acquires the
    mutex, runs one statement of lines 97-111, or releases the mutex, and
    between two of its steps any other goroutine may take steps.  [Pc] says
    which step a goroutine takes next. *)
Inductive Pc : Type :=
| AtLock              (* line 94: seqNumLock.Lock() *)
| AtInit              (* lines 97-103 *)
| AtCompare           (* line 105 *)
| AtIncrement         (* line 106 *)
| AtAssign            (* line 108 *)
| AtReturn            (* line 111: the value to return is read *)
| AtUnlock (v : Z)    (* the deferred seqNumLock.Unlock() *)
| Returned (v : Z)    (* the call has returned v *)
| Crashed (p : panic).

(** One call [getSeqNum(address, key)] in progress. *)
Record Goroutine : Type := mkGoroutine {
  g_address : flow_Address;
  g_key : flow_AccountKey;
  g_pc : Pc
}.

Definition set_pc (pc : Pc) (g : Goroutine) : Goroutine :=
  {| g_address := g_address g; g_key := g_key g; g_pc := pc |}.
Arguments set_pc : simpl never.

(** The shared variables, the mutex (held or not) and the goroutines. *)
Record Config : Type := mkConfig {
  shared : State;
  seqNumLock : bool;
  goroutines : list Goroutine
}.

(** The statement a goroutine inside the critical section runs at [pc], and
    where it stands afterwards. *)
Definition statement (address : flow_Address) (key : flow_AccountKey) (pc : Pc) : M Pc :=
  match pc with
  | AtInit => seqNum_init address;; mret AtCompare
  | AtCompare =>
      entry ← gets (fun st => cached st address (Index key));
      mret (match entry with
            | Some prev => if SequenceNumber key <=? prev then AtIncrement else AtAssign
            | None => AtAssign
            end)
  | AtIncrement => seqNum_increment address (Index key);; mret AtReturn
  | AtAssign => seqNum_assign address (Index key) (SequenceNumber key);; mret AtReturn
  | AtReturn =>
      v ← gets (fun st => cached st address (Index key));
      mret (AtUnlock (default 0 v))
  | _ => mret pc
  end.

(** One step of goroutine number [t], and the value it returns if the step
    completes its call.  [Lock] blocks while the mutex is held: the step
    changes nothing then.  A panic runs the deferred [Unlock]. *)
Definition step (t : nat) (cfg : Config) : Config * option Z :=
  match goroutines cfg !! t with
  | None => (cfg, None)
  | Some g =>
      match g_pc g with
      | AtLock =>
          if seqNumLock cfg then (cfg, None)
          else ({| shared := shared cfg; seqNumLock := true;
                   goroutines := <[t := set_pc AtInit g]> (goroutines cfg) |}, None)
      | AtUnlock v =>
          ({| shared := shared cfg; seqNumLock := false;
              goroutines := <[t := set_pc (Returned v) g]> (goroutines cfg) |}, Some v)
      | Returned _ | Crashed _ => (cfg, None)
      | pc =>
          match statement (g_address g) (g_key g) pc (shared cfg) with
          | Ok pc' st' =>
              ({| shared := st'; seqNumLock := seqNumLock cfg;
                  goroutines := <[t := set_pc pc' g]> (goroutines cfg) |}, None)
          | Panic p st' =>
              ({| shared := st'; seqNumLock := false;
                  goroutines := <[t := set_pc (Crashed p) g]> (goroutines cfg) |}, None)
          end
      end
  end.

(** A schedule names the goroutine that takes each step.  Running it gives
    the final configuration and the values returned, in the order in which
    the calls returned. *)
Fixpoint run_schedule (schedule : list nat) (cfg : Config) : Config * list Z :=
  match schedule with
  | [] => (cfg, [])
  | t :: rest =>
      let '(cfg1, e) := step t cfg in
      let '(cfg2, es) := run_schedule rest cfg1 in
      (cfg2, option_list e ++ es)
  end.

(** [n] goroutines about to call [getSeqNum(address, key)]. *)
Definition launch (n : nat) (address : flow_Address) (key : flow_AccountKey)
    (st : State) : Config :=
  {| shared := st; seqNumLock := false;
     goroutines := replicate n {| g_address := address; g_key := key; g_pc := AtLock |} |}.

Definition returned_value (g : Goroutine) : option Z :=
  match g_pc g with Returned v => Some v | _ => None end.

(** The values of the calls that have returned, goroutine by goroutine. *)
Definition returned_values (cfg : Config) : list Z :=
  omap returned_value (goroutines cfg).

Definition all_returned (cfg : Config) : Prop :=
  Forall (fun g => is_Some (returned_value g)) (goroutines cfg).

Definition crashed (g : Goroutine) : Prop := exists p, g_pc g = Crashed p.

(** The schedule that lets the goroutines run one after the other, six
    steps each. *)
Definition one_by_one (n : nat) : list nat :=
  t ← seq 0 n; replicate 6 t.

(** The cache entry after [j] calls with the remote number [r] that started
    from the entry [c], and the value the call after them hands out. *)
Fixpoint entry_after (c : option Z) (r : Z) (j : nat) : option Z :=
  match j with
  | O => c
  | S j' => Some (allocated (entry_after c r j') r)
  end.

Definition handed_out (c : option Z) (r : Z) (j : nat) : Z :=
  allocated (entry_after c r j) r.

(** The same goroutines without the mutex: a step sees [seqNumLock] free
    whatever its state. *)
Definition step_without_mutex (t : nat) (cfg : Config) : Config * option Z :=
  step t {| shared := shared cfg; seqNumLock := false; goroutines := goroutines cfg |}.

Fixpoint run_without_mutex (schedule : list nat) (cfg : Config) : Config * list Z :=
  match schedule with
  | [] => (cfg, [])
  | t :: rest =>
      let '(cfg1, e) := step_without_mutex t cfg in
      let '(cfg2, es) := run_without_mutex rest cfg1 in
      (cfg2, option_list e ++ es)
  end.

(** A goroutine outside the critical section. *)
Definition idle (pc : Pc) : Prop := pc = AtLock \/ exists v, pc = Returned v.

(** ** Concurrent calls for arbitrary pairs *)







(** What the goroutine inside the critical section can rely on at [pc],
    when [n] calls have returned before it: [c] is the entry the goroutines
    were launched with, all of them for the pair [(address, key.Index)] and
    with the remote number [key.SequenceNumber]. *)
Definition holding (address : flow_Address) (key : flow_AccountKey) (c : option Z)
    (n : nat) (st : State) (pc : Pc) : Prop :=
  let r := SequenceNumber key in
  let entry := entry_after c r n in
  match pc with
  | AtInit => cached st address (Index key) = entry
  | AtCompare => seqNum_ready st address /\ cached st address (Index key) = entry
  | AtIncrement =>
      seqNum_ready st address /\
      exists prev, cached st address (Index key) = Some prev /\
                   entry = Some prev /\ r <= prev
  | AtAssign =>
      seqNum_ready st address /\
      cached st address (Index key) = entry /\ allocated entry r = r
  | AtReturn => cached st address (Index key) = Some (handed_out c r n)
  | AtUnlock v =>
      cached st address (Index key) = Some (handed_out c r n) /\ v = handed_out c r n
  | _ => False
  end.

(** The invariant of the concurrent calls: [events] are the values returned
    so far, in order. *)
Definition coherent (address : flow_Address) (key : flow_AccountKey) (c : option Z)
    (cfg : Config) (events : list Z) : Prop :=
  Forall (fun g => g_address g = address /\ g_key g = key) (goroutines cfg) /\
  events = handed_out c (SequenceNumber key) <$> seq 0 (length events) /\
  returned_values cfg ≡ₚ events /\
  if seqNumLock cfg
  then exists h g,
         goroutines cfg !! h = Some g /\
         holding address key c (length events) (shared cfg) (g_pc g) /\
         forall t g', t <> h -> goroutines cfg !! t = Some g' -> idle (g_pc g')
  else cached (shared cfg) address (Index key) =
         entry_after c (SequenceNumber key) (length events) /\
       Forall (fun g => idle (g_pc g)) (goroutines cfg).

(** ** States the operations can reach *)

(** Every registered address points to an object, and the object carries
    that address. *)
Definition registry_sound (st : State) : Prop :=
  forall address p,
    registered st address = Some p ->
    exists obj, heap st !! p = Some obj /\ Address obj = address.

(** Every object has its cursor in its list, and a list as long as a Go
    slice can be. *)
Definition objects_in_bounds (st : State) : Prop :=
  forall p obj,
    heap st !! p = Some obj -> in_bounds obj /\ is_int (len (KeyIndexes obj)).

(** The slice a call passes has a length that is an [int]. *)
Definition int_sized (c : Call) : Prop :=
  match c with
  | Call_GetAccount _ _ keyIndexes _ => is_int (len keyIndexes)
  | _ => True
  end.

(** Two objects that differ at most in their cursor. *)
Definition same_fields (obj obj' : Account) : Prop :=
  Address obj' = Address obj /\
  PrivateKeyInHex obj' = PrivateKeyInHex obj /\
  KeyIndexes obj' = KeyIndexes obj.

(** * Properties *)

(** ** Facts about Go's primitives *)

Section primitives.

Lemma wrap_uint64_range z : is_uint64 (wrap_uint64 z).
Proof. unfold is_uint64, wrap_uint64, uint64_modulus. apply Z.mod_pos_bound. lia. Qed.

Lemma wrap_uint64_small z : is_uint64 z -> wrap_uint64 z = z.
Proof. unfold is_uint64, wrap_uint64. intros Hz. apply Z.mod_small. exact Hz. Qed.

Lemma wrap_uint64_succ z :
  is_uint64 z -> z <> max_uint64 -> wrap_uint64 (z + 1) = z + 1.
Proof.
  unfold is_uint64, max_uint64. intros Hz Hne.
  apply wrap_uint64_small. unfold is_uint64. lia.
Qed.

Lemma wrap_uint64_max : wrap_uint64 (max_uint64 + 1) = 0.
Proof. reflexivity. Qed.

Lemma wrap_int_small z : is_int z -> wrap_int z = z.
Proof.
  unfold is_int, wrap_int. intros Hz.
  rewrite Z.mod_small by lia. lia.
Qed.

Lemma index_Some {A} (s : list A) (i : Z) (x : A) :
  index s i = Some x <-> 0 <= i /\ s !! Z.to_nat i = Some x.
Proof.
  unfold index. destruct (Z.ltb_spec i 0); split; intros H'; try lia.
  - discriminate.
  - tauto.
  - tauto.
Qed.

Lemma index_None {A} (s : list A) (i : Z) :
  index s i = None <-> i < 0 \/ len s <= i.
Proof.
  unfold index, len. destruct (Z.ltb_spec i 0).
  - split; [intros _; lia | reflexivity].
  - rewrite lookup_ge_None. lia.
Qed.

Lemma rand_Intn_Some draw n r :
  rand_Intn draw n = Some r -> 0 <= r < n.
Proof.
  unfold rand_Intn. destruct (Z.leb_spec n 0); [discriminate |].
  intros [= <-]. apply Z.mod_pos_bound. lia.
Qed.

Lemma rand_Intn_None draw n : rand_Intn draw n = None <-> n <= 0.
Proof.
  unfold rand_Intn. destruct (Z.leb_spec n 0); split; intros; try lia; try done.
Qed.

End primitives.

(** ** The monad, step by step *)

Section monad.

Lemma run_bind {A B} (m : M A) (k : A -> M B) st :
  (m ≫= k) st =
  match m st with
  | Ok a st' => k a st'
  | Panic p st' => Panic p st'
  end.
Proof. reflexivity. Qed.

Lemma run_modify f st : modify f st = Ok tt (f st).
Proof. reflexivity. Qed.

Lemma run_gets {A} (f : State -> A) st : gets f st = Ok (f st) st.
Proof. reflexivity. Qed.

Lemma run_ret {A} (a : A) st : mret (M := M) a st = Ok a st.
Proof. reflexivity. Qed.

Lemma run_deref p st obj : heap st !! p = Some obj -> deref p st = Ok obj st.
Proof. unfold deref. by intros ->. Qed.

Lemma set_accounts_id st accs : accounts st = Some accs -> set_accounts (Some accs) st = st.
Proof. destruct st. simpl. by intros ->. Qed.

End monad.

(** ** The sequence allocator *)

Section allocator.

Implicit Types (st : State) (address : flow_Address) (key : flow_AccountKey).

Lemma cached_alt st address keyIndex :
  cached st address keyIndex =
  default ∅ (default ∅ (seqNumMap st) !! address) !! keyIndex.
Proof.
  unfold cached. destruct (seqNumMap st) as [m|]; simpl; [|done].
  destruct (m !! address) as [inner|]; simpl; done.
Qed.

Lemma seqNum_init_eq address st :
  seqNum_init address st = Ok tt (initialised address st).
Proof.
  unfold seqNum_init, initialised.
  rewrite run_bind, !run_modify. simpl.
  by destruct (default ∅ (seqNumMap st) !! address).
Qed.

Lemma initialised_ready address st : seqNum_ready (initialised address st) address.
Proof.
  unfold seqNum_ready, initialised. simpl.
  destruct (default ∅ (seqNumMap st) !! address) as [inner|] eqn:Hin.
  - by exists (default ∅ (seqNumMap st)), inner.
  - eexists _, ∅. split; [done|]. apply lookup_insert_eq.
Qed.

Lemma cached_initialised address st address' keyIndex' :
  cached (initialised address st) address' keyIndex' = cached st address' keyIndex'.
Proof.
  rewrite !cached_alt. unfold initialised. simpl.
  destruct (default ∅ (seqNumMap st) !! address) as [inner|] eqn:Hin; [done|].
  destruct (decide (address = address')) as [<-|Hne].
  - by rewrite lookup_insert_eq, Hin.
  - by rewrite lookup_insert_ne.
Qed.

Lemma assigned_initialised address keyIndex v st :
  assigned address keyIndex v (initialised address st) = assigned address keyIndex v st.
Proof.
  unfold assigned, initialised. simpl.
  destruct (default ∅ (seqNumMap st) !! address) as [inner|] eqn:Hin.
  - by rewrite Hin.
  - rewrite lookup_insert_eq. simpl. by rewrite insert_insert_eq.
Qed.

(** With the maps in place the assignment does not panic. *)
Lemma seqNum_assign_ready address keyIndex v st :
  seqNum_ready st address ->
  seqNum_assign address keyIndex v st = Ok tt (assigned address keyIndex v st).
Proof.
  intros (m & inner & Hm & Hin). unfold seqNum_assign, assigned.
  rewrite Hm. simpl. by rewrite Hin.
Qed.

Lemma seqNum_increment_ready address keyIndex st :
  seqNum_ready st address ->
  seqNum_increment address keyIndex st =
  Ok tt (assigned address keyIndex
           (wrap_uint64 (default 0 (cached st address keyIndex) + 1)) st).
Proof.
  intros Hready. unfold seqNum_increment.
  rewrite run_bind, run_gets. by apply seqNum_assign_ready.
Qed.

Lemma assigned_ready address keyIndex v st address' :
  seqNum_ready st address' -> seqNum_ready (assigned address keyIndex v st) address'.
Proof.
  intros (m & inner & Hm & Hin). unfold seqNum_ready, assigned. rewrite Hm. simpl.
  destruct (decide (address = address')) as [<-|Hne].
  - eexists _, _. split; [done|]. apply lookup_insert_eq.
  - eexists _, inner. split; [done|]. by rewrite lookup_insert_ne.
Qed.

Lemma cached_assigned_eq address keyIndex v st :
  cached (assigned address keyIndex v st) address keyIndex = Some v.
Proof.
  unfold cached, assigned. simpl. rewrite lookup_insert_eq. simpl.
  apply lookup_insert_eq.
Qed.

Lemma cached_assigned_ne address keyIndex v st address' keyIndex' :
  (address', keyIndex') <> (address, keyIndex) ->
  cached (assigned address keyIndex v st) address' keyIndex' =
  cached st address' keyIndex'.
Proof.
  intros Hne. rewrite !cached_alt. unfold assigned. simpl.
  destruct (decide (address = address')) as [->|Ha].
  - rewrite lookup_insert_eq. simpl.
    rewrite lookup_insert_ne by congruence. done.
  - by rewrite lookup_insert_ne.
Qed.

Lemma getSeqNum_state_assigned address key st :
  getSeqNum_state address key st =
  assigned address (Index key)
    (allocated (cached st address (Index key)) (SequenceNumber key)) st.
Proof. rewrite cached_alt. reflexivity. Qed.

(** [getSeqNum] never panics, hands out [allocated] and leaves
    [getSeqNum_state]. *)
Lemma getSeqNum_eq address key st :
  getSeqNum address key st =
  Ok (allocated (cached st address (Index key)) (SequenceNumber key))
     (getSeqNum_state address key st).
Proof.
  rewrite getSeqNum_state_assigned. unfold getSeqNum.
  rewrite run_bind, seqNum_init_eq, run_bind, run_gets, run_bind.
  rewrite cached_initialised.
  pose proof (initialised_ready address st) as Hready.
  assert (forall v,
    (v' ← gets (fun st => cached st address (Index key)); mret (default 0 v'))
      (assigned address (Index key) v st) =
    Ok v (assigned address (Index key) v st)) as Hret.
  { intros v. rewrite run_bind, run_gets, cached_assigned_eq. done. }
  destruct (cached st address (Index key)) as [prev|] eqn:Hc; simpl.
  - destruct (SequenceNumber key <=? prev).
    + rewrite seqNum_increment_ready by done.
      rewrite cached_initialised, Hc, assigned_initialised. simpl. apply Hret.
    + rewrite seqNum_assign_ready by done.
      rewrite assigned_initialised. apply Hret.
  - rewrite seqNum_assign_ready by done.
    rewrite assigned_initialised. apply Hret.
Qed.

Lemma cached_getSeqNum_state_eq address key st :
  cached (getSeqNum_state address key st) address (Index key) =
  Some (allocated (cached st address (Index key)) (SequenceNumber key)).
Proof.
  rewrite (cached_alt st). unfold cached, getSeqNum_state. simpl.
  rewrite lookup_insert_eq. simpl. by rewrite lookup_insert_eq.
Qed.


Lemma getSeqNum_state_frame address key st :
  accounts (getSeqNum_state address key st) = accounts st /\
  heap (getSeqNum_state address key st) = heap st.
Proof. done. Qed.

End allocator.

Section monotonicity.

Lemma allocated_uint64 c r :
  is_uint64 r -> is_uint64 (allocated c r).
Proof.
  intros Hr. destruct c as [prev|]; simpl; [|done].
  destruct (r <=? prev); [apply wrap_uint64_range | done].
Qed.

(** Unless the entry sits at the largest [uint64], the value handed out
    is above the entry. *)
Lemma allocated_above prev r :
  is_uint64 prev -> prev <> max_uint64 -> prev < allocated (Some prev) r.
Proof.
  intros Hp Hmax. simpl. destruct (Z.leb_spec r prev).
  - rewrite wrap_uint64_succ by done. lia.
  - done.
Qed.

Lemma allocations_chained address keyIndex remotes st :
  exists log st',
    run (allocations address keyIndex remotes) st = Ok log st' /\
    remote <$> log = remotes /\
    chained (cached st address keyIndex) log.
Proof.
  revert st. induction remotes as [|r rs IH]; intros st.
  - exists [], st. done.
  - set (key := {| Index := keyIndex; SequenceNumber := r |}).
    destruct (IH (getSeqNum_state address key st)) as (log & st' & Hrun & Hrem & Hch).
    exists ({| found := cached st address keyIndex; remote := r;
               handed := allocated (cached st address keyIndex) r |} :: log), st'.
    split; [|split].
    + unfold run in *.
      change (allocations address keyIndex (r :: rs) st) with
        (match getSeqNum address key st with
         | Ok v st1 =>
             match allocations address keyIndex rs st1 with
             | Ok log st2 =>
                 Ok ({| found := cached st address keyIndex; remote := r;
                        handed := v |} :: log) st2
             | Panic p st2 => Panic p st2
             end
         | Panic p st1 => Panic p st1
         end).
      rewrite getSeqNum_eq, Hrun. done.
    + rewrite fmap_cons. simpl. by rewrite Hrem.
    + simpl. split; [done|]. split; [done|].
      pose proof (cached_getSeqNum_state_eq address key st) as Hc.
      simpl in Hc. by rewrite <- Hc.
Qed.

Lemma chained_increasing c log :
  (forall prev, c = Some prev -> is_uint64 prev) ->
  Forall is_uint64 (remote <$> log) ->
  Forall (fun e => found e <> Some max_uint64) log ->
  chained c log ->
  StronglySorted Z.lt (handed <$> log) /\
  forall prev, c = Some prev -> Forall (fun v => prev < v) (handed <$> log).
Proof.
  revert c. induction log as [|e log IH]; intros c Hc Hrs Hmax Hch.
  - split; [constructor | intros; constructor].
  - simpl in Hch. destruct Hch as (Hf & Hh & Hch).
    rewrite fmap_cons in Hrs. apply Forall_cons in Hrs as [Hr Hrs].
    apply Forall_cons in Hmax as [Hm Hmax].
    assert (is_uint64 (handed e)) as Hv.
    { rewrite Hh. by apply allocated_uint64. }
    destruct (IH (Some (handed e))) as [Hsorted Habove]; try done.
    { by intros ? [= <-]. }
    specialize (Habove _ eq_refl).
    split.
    + rewrite fmap_cons. by constructor.
    + intros prev ->. rewrite fmap_cons.
      assert (prev < handed e) as Hlt.
      { rewrite Hh. apply allocated_above; [by apply Hc | congruence]. }
      constructor; [done|].
      eapply Forall_impl; [exact Habove|]. simpl. intros; lia.
Qed.

End monotonicity.

(** ** The sequence allocator: claims *)

Section allocator_claims.

Implicit Types (st : State) (address : flow_Address) (key : flow_AccountKey).

(** C5 (first-use trust).  When the pair [(address, key.Index)] has no cache
    entry, [getSeqNum] returns the remote sequence number [key.SequenceNumber]
    itself and leaves it as the entry of the pair. *)
Theorem getSeqNum_first_use address key st :
  cached st address (Index key) = None ->
  exists st',
    getSeqNum address key st = Ok (SequenceNumber key) st' /\
    cached st' address (Index key) = Some (SequenceNumber key).
Proof.
  intros Hnone. exists (getSeqNum_state address key st).
  rewrite getSeqNum_eq, cached_getSeqNum_state_eq, Hnone. done.
Qed.

Lemma getSeqNum_first_use_witness :
  exists st',
    getSeqNum 1%N {| Index := 0; SequenceNumber := 42 |} initial_state = Ok 42 st' /\
    cached st' 1%N 0 = Some 42.
Proof.
  apply (getSeqNum_first_use 1%N {| Index := 0; SequenceNumber := 42 |} initial_state).
  reflexivity.
Defined.

(** C4 (existing entry).  When the pair has the cache entry [c]: if
    [c >= key.SequenceNumber] the entry is incremented by one, as the
    [uint64] it is, and the new entry is returned; if
    [c < key.SequenceNumber] the remote number becomes the entry and is
    returned as it is. *)
Theorem getSeqNum_existing_entry address key st c :
  cached st address (Index key) = Some c ->
  exists v st',
    getSeqNum address key st = Ok v st' /\
    cached st' address (Index key) = Some v /\
    (SequenceNumber key <= c ->
       v = wrap_uint64 (c + 1) /\
       (is_uint64 c -> c <> max_uint64 -> v = c + 1)) /\
    (c < SequenceNumber key -> v = SequenceNumber key).
Proof.
  intros Hc.
  exists (allocated (Some c) (SequenceNumber key)), (getSeqNum_state address key st).
  rewrite getSeqNum_eq, cached_getSeqNum_state_eq, Hc.
  split; [done|]. split; [done|]. simpl.
  destruct (Z.leb_spec (SequenceNumber key) c); split; intros; try lia; try done.
  split; [done|]. intros. by apply wrap_uint64_succ.
Qed.

(** Cached 5 with remote 3 returns 6; cached 5 with remote 10 returns 10. *)
Lemma getSeqNum_existing_entry_witness :
  (exists st', getSeqNum 1%N {| Index := 0; SequenceNumber := 3 |} state_cached_5 = Ok 6 st') /\
  (exists st', getSeqNum 1%N {| Index := 0; SequenceNumber := 10 |} state_cached_5 = Ok 10 st').
Proof.
  split.
  - destruct (getSeqNum_existing_entry 1%N {| Index := 0; SequenceNumber := 3 |}
                state_cached_5 5 eq_refl) as (v & st' & Hrun & _ & Hinc & _).
    destruct Hinc as [_ Hv]; [simpl; lia|].
    exists st'. rewrite Hrun. f_equal. apply Hv; [unfold is_uint64, uint64_modulus; lia | unfold max_uint64, uint64_modulus; lia].
  - destruct (getSeqNum_existing_entry 1%N {| Index := 0; SequenceNumber := 10 |}
                state_cached_5 5 eq_refl) as (v & st' & Hrun & _ & _ & Hadopt).
    exists st'. rewrite Hrun. f_equal. apply Hadopt. simpl; lia.
Defined.

(** C3, as stated, fails where the [uint64] increment wraps around: from the
    initial state, a first call with remote number [2^64 - 1] returns
    [2^64 - 1]; a second call with remote number 0 finds
    [cached >= remote], increments, and returns 0. *)
Lemma getSeqNum_not_monotone_at_wrap :
  exists log st',
    run (allocations 1%N 0 [max_uint64; 0]) initial_state = Ok log st' /\
    handed <$> log = [18446744073709551615; 0] /\
    (exists e, log !! 1%nat = Some e /\ found e = Some max_uint64 /\ remote e <= max_uint64) /\
    ~ StronglySorted Z.le (handed <$> log).
Proof.
  eexists _, _. split; [vm_compute; reflexivity|].
  split; [reflexivity|]. split.
  - eexists. split; [reflexivity|]. split; [reflexivity|]. vm_compute. congruence.
  - simpl. intros Hs. inversion Hs as [|? ? _ Hall]; subst.
    inversion Hall as [|? ? Hle _]; subst. revert Hle. vm_compute. congruence.
Qed.

(** C3 (monotonicity), amended.  For a fixed pair, [N] successive calls with
    arbitrary remote sequence numbers all return, and as long as no call
    finds the entry at [2^64 - 1] the [N] values are non-decreasing, and a
    call that finds [cached >= remote] returns more than the call before
    it. *)
Theorem getSeqNum_monotone address keyIndex remotes st :
  Forall is_uint64 remotes ->
  (forall c, cached st address keyIndex = Some c -> is_uint64 c) ->
  exists log st',
    run (allocations address keyIndex remotes) st = Ok log st' /\
    remote <$> log = remotes /\
    (Forall (fun e => found e <> Some max_uint64) log ->
       StronglySorted Z.le (handed <$> log) /\
       forall i e e' c,
         log !! i = Some e -> log !! S i = Some e' ->
         found e' = Some c -> remote e' <= c ->
         handed e < handed e').
Proof.
  intros Hrs Hc0.
  destruct (allocations_chained address keyIndex remotes st)
    as (log & st' & Hrun & Hrem & Hch).
  exists log, st'. split; [done|]. split; [done|]. intros Hmax.
  destruct (chained_increasing _ log Hc0) as [Hlt _]; try done.
  { by rewrite Hrem. }
  split.
  - clear -Hlt. induction Hlt as [|v vs _ IH Hall]; constructor; [done|].
    eapply Forall_impl; [exact Hall|]. simpl. intros; lia.
  - intros i e e' c Hi HSi _ _.
    assert ((handed <$> log) !! i = Some (handed e)) as Hvi
      by (by rewrite list_lookup_fmap, Hi).
    assert ((handed <$> log) !! S i = Some (handed e')) as HvSi
      by (by rewrite list_lookup_fmap, HSi).
    clear -Hlt Hvi HvSi. revert i Hvi HvSi.
    induction Hlt as [|v vs Hs IH Hall]; intros i Hvi HvSi; [done|].
    destruct i as [|i]; simpl in *.
    + injection Hvi as ->. rewrite Forall_forall in Hall.
      apply Hall. eapply list_elem_of_lookup_2. exact HvSi.
    + by apply (IH i).
Qed.

Lemma getSeqNum_monotone_witness :
  exists log st',
    run (allocations 1%N 0 [7; 3; 100; 100]) initial_state = Ok log st' /\
    handed <$> log = [7; 8; 100; 101] /\
    StronglySorted Z.le (handed <$> log).
Proof.
  destruct (getSeqNum_monotone 1%N 0 [7; 3; 100; 100] initial_state)
    as (log & st' & Hrun & Hrem & Hmono).
  - repeat apply Forall_cons_2; [by vm_compute..|apply Forall_nil_2].
  - intros c Hc. discriminate Hc.
  - exists log, st'. split; [exact Hrun|].
    assert (log = [mkAllocation None 7 7; mkAllocation (Some 7) 3 8;
                   mkAllocation (Some 8) 100 100; mkAllocation (Some 100) 100 101])
      as Hlog.
    { revert Hrun. vm_compute. congruence. }
    split; [by rewrite Hlog|].
    apply Hmono. rewrite Hlog.
    repeat apply Forall_cons_2; [by vm_compute..|apply Forall_nil_2].
Defined.

End allocator_claims.

(** ** The account registry *)

Section registry.

Implicit Types (st : State) (address : flow_Address) (keyIndexes : list Z).

Lemma registered_alt st address :
  registered st address = default ∅ (accounts st) !! address.
Proof. unfold registered. by destruct (accounts st). Qed.

(** A registered address: the pointer is returned, the state is the one
    before the call. *)
Lemma GetAccount_registered address pk keyIndexes draw st existing :
  registered st address = Some existing ->
  GetAccount address pk keyIndexes draw st = Ok existing st.
Proof.
  intros Hreg. unfold GetAccount.
  rewrite run_bind, run_modify, run_bind, run_gets. simpl.
  rewrite registered_alt in Hreg. rewrite Hreg.
  destruct (accounts st) as [accs|] eqn:Haccs; simpl in *.
  - by rewrite (set_accounts_id st accs Haccs).
  - by rewrite lookup_empty in Hreg.
Qed.

(** An address that is not registered, and an empty list: [rand.Intn(0)]
    panics, after the nil map was replaced by an empty one. *)
Lemma GetAccount_empty_fresh address pk draw st :
  registered st address = None ->
  GetAccount address pk [] draw st =
  Panic InvalidArgumentToIntn (set_accounts (Some (default ∅ (accounts st))) st).
Proof.
  intros Hreg. unfold GetAccount.
  rewrite run_bind, run_modify, run_bind, run_gets. simpl.
  rewrite registered_alt in Hreg. by rewrite Hreg.
Qed.

(** An address that is not registered, and [rand.Intn] returning
    [randomIndex]: a new object is allocated and registered. *)
Lemma GetAccount_fresh address pk keyIndexes draw st randomIndex :
  registered st address = None ->
  rand_Intn draw (len keyIndexes) = Some randomIndex ->
  let new := fresh (dom (heap st)) in
  GetAccount address pk keyIndexes draw st =
  Ok new {| accounts := Some (<[address := new]> (default ∅ (accounts st)));
            heap := <[new := {| Address := address; PrivateKeyInHex := pk;
                                KeyIndexes := keyIndexes;
                                nextKeyIndexIndex := randomIndex |}]> (heap st);
            seqNumMap := seqNumMap st |}.
Proof.
  intros Hreg Hrand new. unfold GetAccount.
  rewrite run_bind, run_modify, run_bind, run_gets. simpl.
  rewrite registered_alt in Hreg. rewrite Hreg, Hrand. reflexivity.
Qed.

Lemma fresh_not_allocated st : heap st !! fresh (dom (heap st)) = None.
Proof. apply not_elem_of_dom. apply is_fresh. Qed.

End registry.

Section registry_claims.

Implicit Types (st : State) (address : flow_Address) (keyIndexes : list Z).

(** C1, as stated, fails: [GetAccount] has no error result, and a first call
    for an address with an empty [keyIndexes] panics in [rand.Intn(0)]. *)
Lemma GetAccount_empty_keyIndexes_panics :
  GetAccount 1%N "key" [] 0 initial_state =
  Panic InvalidArgumentToIntn {| accounts := Some ∅; heap := ∅; seqNumMap := None |}.
Proof. reflexivity. Qed.

(** C1, amended.  A call of [GetAccount] with an empty [keyIndexes] returns
    no error.  For an address that is not registered it stops with the panic
    of [rand.Intn(0)] while the cursor is being chosen, before any [Account]
    is built: no object is allocated, no address becomes registered and the
    sequence cache is untouched, so no [Account] with an empty list can
    reach the rotator through the registry.  For a registered address it
    returns the [Account] there is. *)
Theorem GetAccount_empty_keyIndexes address pk draw st :
  match registered st address with
  | Some existing => GetAccount address pk [] draw st = Ok existing st
  | None =>
      exists st',
        GetAccount address pk [] draw st = Panic InvalidArgumentToIntn st' /\
        heap st' = heap st /\
        seqNumMap st' = seqNumMap st /\
        forall address', registered st' address' = registered st address'
  end.
Proof.
  destruct (registered st address) as [existing|] eqn:Hreg.
  - by apply GetAccount_registered.
  - eexists. split; [by apply GetAccount_empty_fresh|].
    split; [done|]. split; [done|].
    intros address'. rewrite !registered_alt. done.
Qed.

(** C7 (first writer wins).  When an [Account] is registered for [address],
    [GetAccount] returns the pointer to it whatever [privateKeyInHex],
    [keyIndexes] and random draw the call brings, and the state after the
    call is the state before it: neither the object nor its cursor has
    changed. *)
Theorem GetAccount_returns_existing address pk keyIndexes draw st existing :
  registered st address = Some existing ->
  GetAccount address pk keyIndexes draw st = Ok existing st.
Proof. apply GetAccount_registered. Qed.

(** The state after [GetAccount(1, "first", [4,5,6])] drew the cursor 2. *)
Lemma GetAccount_returns_existing_witness :
  exists a st,
    GetAccount 1%N "first" [4; 5; 6] 5 initial_state = Ok a st /\
    heap st !! a = Some {| Address := 1%N; PrivateKeyInHex := "first";
                           KeyIndexes := [4; 5; 6]; nextKeyIndexIndex := 2 |} /\
    GetAccount 1%N "second" [] 0 st = Ok a st.
Proof.
  eexists _, _. split; [reflexivity|]. split; [reflexivity|].
  apply (GetAccount_returns_existing 1%N "second" [] 0). reflexivity.
Defined.

End registry_claims.

(** ** The key rotator *)

Section rotator.

Implicit Types (st : State) (obj : Account) (a : loc).

(** With the cursor in bounds the call returns the key index under the
    cursor and moves the cursor one position on, modulo the length. *)
Lemma rotate_KeyIndex_in_bounds obj :
  in_bounds obj -> is_int (len (KeyIndexes obj)) ->
  exists i,
    KeyIndexes obj !! Z.to_nat (nextKeyIndexIndex obj) = Some i /\
    rotate_KeyIndex obj =
    inr (i, with_cursor ((nextKeyIndexIndex obj + 1) mod len (KeyIndexes obj)) obj).
Proof.
  unfold in_bounds, is_int. intros Hb Hint.
  destruct (KeyIndexes obj !! Z.to_nat (nextKeyIndexIndex obj)) as [i|] eqn:Hi.
  - exists i. split; [done|]. unfold rotate_KeyIndex.
    assert (index (KeyIndexes obj) (nextKeyIndexIndex obj) = Some i) as ->
      by (apply index_Some; split; [lia | done]).
    rewrite wrap_int_small by (unfold is_int; lia).
    unfold rem. destruct (Z.eqb_spec (len (KeyIndexes obj)) 0); [lia|].
    rewrite Z.rem_mod_nonneg by lia. done.
  - apply lookup_ge_None in Hi. unfold len in Hb. lia.
Qed.

(** With the cursor out of bounds the indexing panics. *)
Lemma rotate_KeyIndex_out_of_bounds obj :
  ~ in_bounds obj -> rotate_KeyIndex obj = inl IndexOutOfRange.
Proof.
  unfold in_bounds. intros Hb. unfold rotate_KeyIndex.
  assert (index (KeyIndexes obj) (nextKeyIndexIndex obj) = None) as ->
    by (apply index_None; lia).
  done.
Qed.

Lemma with_cursor_in_bounds obj c :
  0 < len (KeyIndexes obj) -> in_bounds (with_cursor (c mod len (KeyIndexes obj)) obj).
Proof. unfold in_bounds. simpl. intros. apply Z.mod_pos_bound. lia. Qed.

(** [KeyIndex] through a pointer to an object in bounds. *)
Lemma KeyIndex_in_bounds a obj st :
  heap st !! a = Some obj ->
  in_bounds obj -> is_int (len (KeyIndexes obj)) ->
  exists i,
    KeyIndexes obj !! Z.to_nat (nextKeyIndexIndex obj) = Some i /\
    KeyIndex a st =
    Ok i (set_heap (<[a := with_cursor ((nextKeyIndexIndex obj + 1) mod len (KeyIndexes obj)) obj]>
                      (heap st)) st).
Proof.
  intros Ha Hb Hint.
  destruct (rotate_KeyIndex_in_bounds obj Hb Hint) as (i & Hi & Hrot).
  exists i. split; [done|]. unfold KeyIndex.
  rewrite run_bind, (run_deref _ _ _ Ha), Hrot. reflexivity.
Qed.

(** A call that panics leaves the state as it was. *)
Lemma KeyIndex_panic a st p st' : KeyIndex a st = Panic p st' -> st' = st.
Proof.
  unfold KeyIndex. rewrite run_bind. unfold deref.
  destruct (heap st !! a) as [obj|]; simpl; [|by intros [= _ <-]].
  destruct (rotate_KeyIndex obj) as [q|[i obj']]; simpl.
  - by intros [= _ <-].
  - rewrite run_bind, run_modify. discriminate.
Qed.

Lemma round_robin_S c keyIndexes n :
  round_robin c keyIndexes (S n) =
  (c mod len keyIndexes, default 0 (keyIndexes !! Z.to_nat (c mod len keyIndexes)))
    :: round_robin ((c + 1) mod len keyIndexes) keyIndexes n.
Proof.
  unfold round_robin. rewrite <- cons_seq, fmap_cons. simpl.
  rewrite Z.add_0_r. f_equal.
  rewrite <- fmap_S_seq, <- list_fmap_compose.
  apply list_fmap_ext. intros _ j _. simpl.
  replace ((c + 1) mod len keyIndexes + Z.of_nat j)
    with (Z.of_nat j + (c + 1) mod len keyIndexes) by lia.
  rewrite Zplus_mod_idemp_r.
  replace (Z.of_nat j + (c + 1)) with (c + Z.of_nat (S j)) by lia. done.
Qed.

(** [n] successive calls on an object in bounds all return; they go round
    the list from the cursor, and leave the cursor [n] positions on. *)
Lemma rotations_round_robin a n obj st :
  heap st !! a = Some obj ->
  in_bounds obj -> is_int (len (KeyIndexes obj)) ->
  exists st',
    run (rotations a n) st =
      Ok (round_robin (nextKeyIndexIndex obj) (KeyIndexes obj) n) st' /\
    heap st' !! a =
      Some (with_cursor ((nextKeyIndexIndex obj + Z.of_nat n) mod len (KeyIndexes obj)) obj) /\
    (forall b, b <> a -> heap st' !! b = heap st !! b) /\
    accounts st' = accounts st /\ seqNumMap st' = seqNumMap st.
Proof.
  revert obj st. induction n as [|n IH]; intros obj st Ha Hb Hint.
  - exists st. split; [done|]. split; [|done].
    rewrite Z.add_0_r, Z.mod_small by done. rewrite Ha. by destruct obj.
  - destruct (KeyIndex_in_bounds a obj st Ha Hb Hint) as (i & Hi & Hcall).
    set (obj1 := with_cursor ((nextKeyIndexIndex obj + 1) mod len (KeyIndexes obj)) obj) in *.
    set (st1 := set_heap (<[a := obj1]> (heap st)) st) in *.
    assert (0 < len (KeyIndexes obj)) as Hpos by (unfold in_bounds in Hb; lia).
    destruct (IH obj1 st1) as (st' & Hrun & Hobj & Hframe & Haccs & Hseq).
    { unfold st1. simpl. apply lookup_insert_eq. }
    { by apply with_cursor_in_bounds. }
    { done. }
    exists st'. split; [|split; [|split]].
    + unfold run in *.
      change (rotations a (S n) st) with
        ((obj ← deref a; i ← KeyIndex a; log ← rotations a n;
          mret ((nextKeyIndexIndex obj, i) :: log)) st).
      rewrite run_bind, (run_deref _ _ _ Ha), run_bind, Hcall, run_bind, Hrun.
      rewrite run_ret, round_robin_S. simpl.
      unfold in_bounds in Hb.
      rewrite (Z.mod_small (nextKeyIndexIndex obj)) by done. by rewrite Hi.
    + rewrite Hobj. simpl. unfold with_cursor. simpl. f_equal. f_equal.
      rewrite Zplus_mod_idemp_l. f_equal. lia.
    + intros b Hne. rewrite Hframe by done. unfold st1. simpl.
      by rewrite lookup_insert_ne.
    + done.
Qed.

End rotator.

(** ** Going round the list: whole rounds *)

Section rounds.

Implicit Types (keyIndexes : list Z) (log : list (Z * Z)).

Lemma slots_from_lookup p keyIndexes (j : nat) :
  slots_from p keyIndexes !! j = (fun i => (p + Z.of_nat j, i)) <$> keyIndexes !! j.
Proof.
  revert p j. induction keyIndexes as [|i rest IH]; intros p j; [done|].
  destruct j as [|j]; simpl.
  - by rewrite Z.add_0_r.
  - rewrite IH. destruct (rest !! j); simpl; [|done].
    do 2 f_equal. lia.
Qed.

Lemma slots_from_length p keyIndexes :
  length (slots_from p keyIndexes) = length keyIndexes.
Proof. revert p. induction keyIndexes; intros; simpl; [done | by f_equal]. Qed.

Lemma round_robin_length c keyIndexes n : length (round_robin c keyIndexes n) = n.
Proof. unfold round_robin. by rewrite length_fmap, length_seq. Qed.

Lemma round_robin_lookup c keyIndexes n (j : nat) :
  (j < n)%nat ->
  round_robin c keyIndexes n !! j =
  Some ((c + Z.of_nat j) mod len keyIndexes,
        default 0 (keyIndexes !! Z.to_nat ((c + Z.of_nat j) mod len keyIndexes))).
Proof.
  intros Hj. unfold round_robin. rewrite list_lookup_fmap.
  by rewrite lookup_seq_lt.
Qed.

Lemma round_robin_app c keyIndexes n m :
  round_robin c keyIndexes (n + m) =
  round_robin c keyIndexes n ++
  round_robin ((c + Z.of_nat n) mod len keyIndexes) keyIndexes m.
Proof.
  unfold round_robin. rewrite seq_app, fmap_app. f_equal. simpl.
  assert (seq n m = Nat.add n <$> seq 0 m) as ->
    by (rewrite fmap_add_seq; f_equal; lia).
  rewrite <- list_fmap_compose.
  apply list_fmap_ext. intros _ j _. simpl.
  replace ((c + Z.of_nat n) mod len keyIndexes + Z.of_nat j)
    with (Z.of_nat j + (c + Z.of_nat n) mod len keyIndexes) by lia.
  rewrite Zplus_mod_idemp_r.
  replace (Z.of_nat j + (c + Z.of_nat n)) with (c + Z.of_nat (n + j)) by lia. done.
Qed.

(** One whole round from the cursor [c] is the list of slots rotated by
    [c]. *)
Lemma round_robin_round c keyIndexes :
  0 <= c < len keyIndexes ->
  round_robin c keyIndexes (length keyIndexes) =
  rotate (Z.to_nat c) (slots keyIndexes).
Proof.
  intros Hc. apply list_eq. intros j.
  destruct (decide (j < length keyIndexes)%nat) as [Hj|Hj].
  - rewrite round_robin_lookup by done.
    rewrite lookup_rotate_r by (unfold slots; by rewrite slots_from_length).
    unfold slots. rewrite slots_from_length, slots_from_lookup.
    unfold rotate_nat_add. rewrite (Z2Nat.id c) by lia. fold (len keyIndexes).
    assert (0 <= (c + Z.of_nat j) mod len keyIndexes < len keyIndexes) as Hpos
      by (apply Z.mod_pos_bound; lia).
    destruct (keyIndexes !! Z.to_nat ((c + Z.of_nat j) mod len keyIndexes))
      as [i|] eqn:Hi; simpl.
    + do 2 f_equal. lia.
    + apply lookup_ge_None in Hi. unfold len in *. lia.
  - rewrite !lookup_ge_None_2; [done | |].
    + rewrite length_rotate. unfold slots. rewrite slots_from_length. lia.
    + rewrite round_robin_length. lia.
Qed.

(** [k] whole rounds are [k] copies of the rotated list of slots. *)
Lemma round_robin_rounds c keyIndexes k :
  0 <= c < len keyIndexes ->
  round_robin c keyIndexes (k * length keyIndexes) =
  mjoin (replicate k (rotate (Z.to_nat c) (slots keyIndexes))).
Proof.
  intros Hc. induction k as [|k IH]; [done|].
  simpl. rewrite round_robin_app, round_robin_round by done. f_equal.
  fold (len keyIndexes). rewrite <- IH. f_equal.
  rewrite <- (Z.mul_1_l (len keyIndexes)) at 1.
  rewrite Z.mod_add by lia. apply Z.mod_small. done.
Qed.

Lemma visits_app pos log1 log2 :
  visits pos (log1 ++ log2) = (visits pos log1 + visits pos log2)%nat.
Proof. unfold visits. by rewrite filter_app, length_app. Qed.

Lemma visits_rotate pos n log : visits pos (rotate n log) = visits pos log.
Proof.
  unfold rotate. set (m := (n mod length log)%nat).
  transitivity (visits pos (take m log ++ drop m log)).
  - rewrite !visits_app. lia.
  - by rewrite take_drop.
Qed.

Lemma visits_replicate pos k log :
  visits pos (mjoin (replicate k log)) = (k * visits pos log)%nat.
Proof.
  induction k as [|k IH]; [done|].
  simpl. rewrite visits_app, IH. done.
Qed.

Lemma visits_slots_from pos p keyIndexes :
  visits pos (slots_from p keyIndexes) =
  if decide (p <= pos < p + len keyIndexes) then 1%nat else 0%nat.
Proof.
  revert p. induction keyIndexes as [|i rest IH]; intros p.
  - unfold len. simpl. case_decide; [lia | done].
  - unfold visits in *. simpl slots_from. rewrite filter_cons. simpl.
    specialize (IH (p + 1)). unfold len in *. simpl length.
    rewrite Nat2Z.inj_succ.
    destruct (decide (p = pos)) as [->|Hne]; simpl; rewrite IH;
      repeat case_decide; lia.
Qed.

(** Every position of the list is visited once per round. *)
Lemma visits_rounds keyIndexes c k (pos : nat) :
  (pos < length keyIndexes)%nat ->
  visits (Z.of_nat pos) (mjoin (replicate k (rotate c (slots keyIndexes)))) = k.
Proof.
  intros Hpos. rewrite visits_replicate, visits_rotate.
  unfold slots. rewrite visits_slots_from. unfold len.
  case_decide; lia.
Qed.

(** An entry of a round holds the key index stored at its position. *)
Lemma round_robin_entry c keyIndexes n e :
  0 < len keyIndexes ->
  e ∈ round_robin c keyIndexes n ->
  exists pos : nat, e.1 = Z.of_nat pos /\ keyIndexes !! pos = Some e.2.
Proof.
  intros Hlen Hin. unfold round_robin in Hin.
  apply list_elem_of_fmap in Hin as (j & -> & _). simpl.
  assert (0 <= (c + Z.of_nat j) mod len keyIndexes < len keyIndexes) as Hpos
    by (apply Z.mod_pos_bound; lia).
  exists (Z.to_nat ((c + Z.of_nat j) mod len keyIndexes)).
  split; [lia|].
  destruct (keyIndexes !! Z.to_nat ((c + Z.of_nat j) mod len keyIndexes))
    as [i|] eqn:Hi; [done|].
  apply lookup_ge_None in Hi. unfold len in *. lia.
Qed.

End rounds.

Section rotator_claims.

Implicit Types (st : State) (obj : Account) (a : loc).

(** C6 (rotation fairness).  Let [a] point to an [Account] whose list has
    length [L > 0] and whose cursor [c] is in the list.  Each call of
    [KeyIndex] returns the key index under the cursor and moves the cursor to
    [(c + 1) mod L].  [k * L] successive calls all return; their log is [k]
    copies of the list of (position, key index) slots rotated to start at
    [c], so every position is visited exactly [k] times, each time returning
    the key index stored there, and the cursor is back at [c]. *)
Theorem KeyIndex_round_robin a obj st k :
  heap st !! a = Some obj ->
  in_bounds obj ->
  is_int (len (KeyIndexes obj)) ->
  (exists i st1,
     KeyIndex a st = Ok i st1 /\
     index (KeyIndexes obj) (nextKeyIndexIndex obj) = Some i /\
     heap st1 !! a =
       Some (with_cursor ((nextKeyIndexIndex obj + 1) mod len (KeyIndexes obj)) obj)) /\
  exists log st',
    run (rotations a (k * length (KeyIndexes obj))) st = Ok log st' /\
    log = mjoin (replicate k (rotate (Z.to_nat (nextKeyIndexIndex obj))
                                     (slots (KeyIndexes obj)))) /\
    (forall (pos : nat) i,
       KeyIndexes obj !! pos = Some i ->
       visits (Z.of_nat pos) log = k /\
       forall e, e ∈ log -> e.1 = Z.of_nat pos -> e.2 = i) /\
    heap st' !! a = Some obj.
Proof.
  intros Ha Hb Hint. split.
  - destruct (KeyIndex_in_bounds a obj st Ha Hb Hint) as (i & Hi & Hcall).
    eexists i, _. split; [exact Hcall|]. split.
    + apply index_Some. unfold in_bounds in Hb. split; [lia | done].
    + simpl. apply lookup_insert_eq.
  - destruct (rotations_round_robin a (k * length (KeyIndexes obj)) obj st Ha Hb Hint)
      as (st' & Hrun & Hobj & _).
    assert (0 < len (KeyIndexes obj)) as Hpos by (unfold in_bounds in Hb; lia).
    eexists _, st'. split; [exact Hrun|]. split; [|split].
    + by apply round_robin_rounds.
    + intros pos i Hi. split.
      * rewrite round_robin_rounds by done. apply visits_rounds.
        by eapply lookup_lt_Some.
      * intros e He Hpos_e.
        destruct (round_robin_entry _ _ _ e Hpos He) as (pos' & Hpos' & Hi').
        assert (pos' = pos) as -> by lia. congruence.
    + rewrite Hobj. f_equal.
      rewrite Nat2Z.inj_mul. fold (len (KeyIndexes obj)).
      rewrite Z.mod_add by lia.
      unfold in_bounds in Hb. rewrite Z.mod_small by done.
      by destruct obj.
Qed.

(** Two rounds over [4; 5; 6] from cursor 2. *)
Lemma KeyIndex_round_robin_witness :
  exists st',
    run (rotations 1%positive 6) state_one_account =
    Ok [(2, 6); (0, 4); (1, 5); (2, 6); (0, 4); (1, 5)] st' /\
    visits 0 [(2, 6); (0, 4); (1, 5); (2, 6); (0, 4); (1, 5)] = 2%nat.
Proof.
  destruct (KeyIndex_round_robin 1%positive
              {| Address := 1%N; PrivateKeyInHex := "key";
                 KeyIndexes := [4; 5; 6]; nextKeyIndexIndex := 2 |}
              state_one_account 2)
    as (_ & log & st' & Hrun & Hlog & Hvisits & _).
  - reflexivity.
  - unfold in_bounds. simpl. split; by vm_compute.
  - split; by vm_compute.
  - exists st'. split.
    + rewrite Hlog in Hrun. exact Hrun.
    + destruct (Hvisits 0%nat 4 eq_refl) as [Hv _].
      rewrite Hlog in Hv. exact Hv.
Defined.

End rotator_claims.

(** ** Proposal-key assembly *)

Section proposal_key.

Implicit Types (st : State) (a : Account) (flowClient : flow_Address -> QueryResult).

(** The call, case by case, in the order the code takes its decisions. *)
Lemma GetProposalKey_eq a flowClient st :
  GetProposalKey a flowClient st =
  match rotate_KeyIndex a with
  | inl p => Panic p st
  | inr (i, _) =>
      match (flowClient (Address a)).1 with
      | None => Panic NilPointerDereference st
      | Some account =>
          match index (Keys account) i with
          | None => Panic IndexOutOfRange st
          | Some k =>
              match (flowClient (Address a)).2 with
              | Some err =>
                  Ok (None, Some (Errorf "error in flow_helpers.Account.GetProposalKey" err)) st
              | None =>
                  Ok (Some (with_SequenceNumber
                              (allocated (cached st (Address a) (Index k)) (SequenceNumber k)) k),
                      None)
                     (getSeqNum_state (Address a) k st)
              end
          end
      end
  end.
Proof.
  unfold GetProposalKey.
  destruct (flowClient (Address a)) as [account err]. simpl.
  rewrite run_bind.
  destruct (rotate_KeyIndex a) as [p|[i a']]; [done|].
  rewrite run_ret, run_bind.
  destruct account as [account|]; [|done]. simpl.
  rewrite run_bind.
  destruct (index (Keys account) i) as [k|]; [|done]. simpl.
  destruct err as [err|]; [done|].
  rewrite run_bind, getSeqNum_eq. done.
Qed.

(** The call never touches the registry nor the objects it points to: the
    cursor it advances is the one of its own copy of the receiver. *)
Lemma GetProposalKey_frame a flowClient st :
  accounts (state_of (GetProposalKey a flowClient st)) = accounts st /\
  heap (state_of (GetProposalKey a flowClient st)) = heap st.
Proof.
  rewrite GetProposalKey_eq.
  destruct (rotate_KeyIndex a) as [p|[i a']]; [done|].
  destruct ((flowClient (Address a)).1) as [account|]; [|done].
  destruct (index (Keys account) i) as [k|]; [|done].
  destruct ((flowClient (Address a)).2) as [err|]; done.
Qed.

Lemma GetProposalKey_of_frame acct flowClient st :
  accounts (state_of (GetProposalKey_of acct flowClient st)) = accounts st /\
  heap (state_of (GetProposalKey_of acct flowClient st)) = heap st.
Proof.
  unfold GetProposalKey_of. rewrite run_bind. unfold deref.
  destruct (heap st !! acct) as [a|]; simpl; [|done].
  apply GetProposalKey_frame.
Qed.

(** A call that panics leaves the whole state as it was. *)
Lemma GetProposalKey_panic a flowClient st p st' :
  GetProposalKey a flowClient st = Panic p st' -> st' = st.
Proof.
  rewrite GetProposalKey_eq.
  destruct (rotate_KeyIndex a) as [q|[i a']]; [by intros [= _ <-]|].
  destruct ((flowClient (Address a)).1) as [account|]; [|by intros [= _ <-]].
  destruct (index (Keys account) i) as [k|]; [|by intros [= _ <-]].
  destruct ((flowClient (Address a)).2) as [err|]; discriminate.
Qed.

End proposal_key.

(** ** Every operation keeps the cursor of every [Account] in bounds *)

Section invariant.

Implicit Types (st : State) (obj : Account) (a : loc) (c : Call).

Lemma GetAccount_panic address pk keyIndexes draw st :
  registered st address = None ->
  rand_Intn draw (len keyIndexes) = None ->
  GetAccount address pk keyIndexes draw st =
  Panic InvalidArgumentToIntn (set_accounts (Some (default ∅ (accounts st))) st).
Proof.
  intros Hreg Hrand. unfold GetAccount.
  rewrite run_bind, run_modify, run_bind, run_gets. simpl.
  rewrite registered_alt in Hreg. by rewrite Hreg, Hrand.
Qed.

(** [GetAccount] leaves the objects there are as they are. *)
Lemma GetAccount_keeps_objects address pk keyIndexes draw st a obj :
  heap st !! a = Some obj ->
  heap (state_of (GetAccount address pk keyIndexes draw st)) !! a = Some obj.
Proof.
  intros Ha.
  destruct (registered st address) as [existing|] eqn:Hreg.
  - by rewrite (GetAccount_registered _ _ _ _ _ _ Hreg).
  - destruct (rand_Intn draw (len keyIndexes)) as [randomIndex|] eqn:Hrand.
    + rewrite (GetAccount_fresh _ _ _ _ _ _ Hreg Hrand). simpl.
      rewrite lookup_insert_ne; [done|].
      intros Heq. pose proof (fresh_not_allocated st) as Hfresh.
      rewrite Heq in Hfresh. congruence.
    + by rewrite (GetAccount_panic _ _ _ _ _ Hreg Hrand).
Qed.

(** [KeyIndex] through another pointer leaves the object of [a] as it is. *)
Lemma KeyIndex_other b a st :
  b <> a -> heap (state_of (KeyIndex b st)) !! a = heap st !! a.
Proof.
  intros Hne. unfold KeyIndex. rewrite run_bind. unfold deref.
  destruct (heap st !! b) as [objb|]; simpl; [|done].
  destruct (rotate_KeyIndex objb) as [p|[i objb']]; simpl; [done|].
  by rewrite lookup_insert_ne.
Qed.

(** One call of any operation: the object of [a] keeps its list, its
    address and its key, and its cursor stays in bounds. *)
Lemma exec_keeps_in_bounds c st a obj :
  heap st !! a = Some obj ->
  in_bounds obj -> is_int (len (KeyIndexes obj)) ->
  exists obj',
    heap (exec c st) !! a = Some obj' /\
    KeyIndexes obj' = KeyIndexes obj /\
    Address obj' = Address obj /\
    PrivateKeyInHex obj' = PrivateKeyInHex obj /\
    in_bounds obj'.
Proof.
  intros Ha Hb Hint.
  destruct c as [address pk keyIndexes draw | b | acct flowClient | address key];
    unfold exec.
  - exists obj. by rewrite (GetAccount_keeps_objects _ _ _ _ _ _ _ Ha).
  - destruct (decide (b = a)) as [->|Hne].
    + destruct (KeyIndex_in_bounds a obj st Ha Hb Hint) as (i & _ & ->).
      eexists. simpl. rewrite lookup_insert_eq. split; [done|].
      repeat split; try done.
      * apply (with_cursor_in_bounds obj). unfold in_bounds in Hb. lia.
      * apply (with_cursor_in_bounds obj). unfold in_bounds in Hb. lia.
    + exists obj. by rewrite KeyIndex_other.
  - exists obj. destruct (GetProposalKey_of_frame acct flowClient st) as [_ ->].
    done.
  - exists obj. rewrite getSeqNum_eq. done.
Qed.

Lemma exec_all_keeps_in_bounds cs st a obj :
  heap st !! a = Some obj ->
  in_bounds obj -> is_int (len (KeyIndexes obj)) ->
  exists obj',
    heap (exec_all cs st) !! a = Some obj' /\
    KeyIndexes obj' = KeyIndexes obj /\
    Address obj' = Address obj /\
    PrivateKeyInHex obj' = PrivateKeyInHex obj /\
    in_bounds obj'.
Proof.
  revert st obj. induction cs as [|c cs IH]; intros st obj Ha Hb Hint.
  - exists obj. done.
  - destruct (exec_keeps_in_bounds c st a obj Ha Hb Hint)
      as (obj1 & Ha1 & Hks1 & Hadr1 & Hpk1 & Hb1).
    destruct (IH (exec c st) obj1 Ha1 Hb1) as (obj2 & Ha2 & Hks2 & Hadr2 & Hpk2 & Hb2).
    { by rewrite Hks1. }
    exists obj2. simpl. split; [done|]. repeat split; try congruence; apply Hb2.
Qed.

End invariant.

Section invariant_claims.

Implicit Types (st : State) (address : flow_Address) (keyIndexes : list Z).

(** C8 (cursor in bounds).  [GetAccount] for an address that is not
    registered, with a non-empty [keyIndexes], registers a new [Account]
    whose list is [keyIndexes] and whose cursor is the drawn index, within
    [[0, len(keyIndexes))].  After any number of [KeyIndex] calls, all of
    which return, and after any sequence of calls of the operations of the
    package, the [Account] still holds the list [keyIndexes] and its cursor
    is within [[0, len(keyIndexes))]. *)
Theorem GetAccount_cursor_stays_in_bounds address pk keyIndexes draw st :
  registered st address = None ->
  keyIndexes <> [] ->
  is_int (len keyIndexes) ->
  exists a st1,
    GetAccount address pk keyIndexes draw st = Ok a st1 /\
    registered st1 address = Some a /\
    heap st1 !! a = Some {| Address := address; PrivateKeyInHex := pk;
                            KeyIndexes := keyIndexes;
                            nextKeyIndexIndex := draw mod len keyIndexes |} /\
    0 <= draw mod len keyIndexes < len keyIndexes /\
    (forall n, exists log st2 obj2,
        run (rotations a n) st1 = Ok log st2 /\
        heap st2 !! a = Some obj2 /\
        KeyIndexes obj2 = keyIndexes /\ in_bounds obj2) /\
    (forall cs, exists obj2,
        heap (exec_all cs st1) !! a = Some obj2 /\
        KeyIndexes obj2 = keyIndexes /\ in_bounds obj2).
Proof.
  intros Hreg Hne Hint.
  assert (0 < len keyIndexes) as Hpos.
  { unfold len. destruct keyIndexes; [done | simpl; lia]. }
  assert (rand_Intn draw (len keyIndexes) = Some (draw mod len keyIndexes)) as Hrand.
  { unfold rand_Intn. destruct (Z.leb_spec (len keyIndexes) 0); [lia | done]. }
  assert (0 <= draw mod len keyIndexes < len keyIndexes) as Hc
    by (apply Z.mod_pos_bound; lia).
  pose proof (GetAccount_fresh address pk keyIndexes draw st _ Hreg Hrand) as Hcall.
  simpl in Hcall.
  set (a := fresh (dom (heap st))) in *.
  set (obj := {| Address := address; PrivateKeyInHex := pk; KeyIndexes := keyIndexes;
                 nextKeyIndexIndex := draw mod len keyIndexes |}) in *.
  set (st1 := {| accounts := Some (<[address:=a]> (default ∅ (accounts st)));
                 heap := <[a:=obj]> (heap st); seqNumMap := seqNumMap st |}) in *.
  assert (heap st1 !! a = Some obj) as Ha by apply lookup_insert_eq.
  exists a, st1. split; [exact Hcall|].
  assert (in_bounds obj) as Hb by done.
  split; [|split; [|split; [|split]]].
  - unfold registered. simpl. apply lookup_insert_eq.
  - exact Ha.
  - done.
  - intros n.
    destruct (rotations_round_robin a n obj st1 Ha Hb Hint) as (st2 & Hrun & Hobj & _).
    eexists _, st2, _. split; [exact Hrun|]. split; [exact Hobj|].
    split; [done|]. by apply (with_cursor_in_bounds obj).
  - intros cs.
    destruct (exec_all_keeps_in_bounds cs st1 a obj Ha Hb Hint)
      as (obj2 & Ha2 & Hks2 & _ & _ & Hb2).
    exists obj2. done.
Qed.

(** A first [GetAccount(1, "key", [4,5,6])] that draws 5 starts at cursor 2. *)
Lemma GetAccount_cursor_stays_in_bounds_witness :
  exists a st1,
    GetAccount 1%N "key" [4; 5; 6] 5 initial_state = Ok a st1 /\
    heap st1 !! a = Some {| Address := 1%N; PrivateKeyInHex := "key";
                            KeyIndexes := [4; 5; 6]; nextKeyIndexIndex := 2 |}.
Proof.
  destruct (GetAccount_cursor_stays_in_bounds 1%N "key" [4; 5; 6] 5 initial_state)
    as (a & st1 & Hcall & _ & Hobj & _).
  - reflexivity.
  - discriminate.
  - split; by vm_compute.
  - exists a, st1. split; [exact Hcall | exact Hobj].
Defined.

End invariant_claims.

Section proposal_key_claims.

Implicit Types (st : State) (a : Account) (flowClient : flow_Address -> QueryResult).

Lemma rotate_KeyIndex_returns a i :
  index (KeyIndexes a) (nextKeyIndexIndex a) = Some i ->
  exists a', rotate_KeyIndex a = inr (i, a').
Proof.
  intros Hi. unfold rotate_KeyIndex. rewrite Hi.
  unfold rem. destruct (Z.eqb_spec (len (KeyIndexes a)) 0) as [Hz|Hz].
  - apply index_Some in Hi as [Hge Hi]. apply lookup_lt_Some in Hi.
    unfold len in Hz. lia.
  - eexists. reflexivity.
Qed.

(** C2: what the code does when the remote query fails.  The client
    answers with a nil account and an error; [GetProposalKey] reads
    [account.Keys] on line 73, before it looks at the error on line 74, and
    panics instead of returning the error, whatever the receiver and the
    error.  The state is left as it was.  For a receiver whose rotator
    works, with [KeyIndexes = [0]] and the cursor at 0, the panic is the nil
    dereference, also when the call goes through a pointer of the
    registry. *)
Theorem GetProposalKey_remote_failure_panics :
  (forall a st err,
     exists p, GetProposalKey a (fun _ => (None, Some err)) st = Panic p st) /\
  GetProposalKey {| Address := 1%N; PrivateKeyInHex := "key";
                    KeyIndexes := [0]; nextKeyIndexIndex := 0 |}
                 (fun _ => (None, Some (ClientError "unavailable"))) initial_state =
  Panic NilPointerDereference initial_state /\
  GetProposalKey_of 1%positive
                 (fun _ => (None, Some (ClientError "unavailable"))) state_one_account =
  Panic NilPointerDereference state_one_account.
Proof.
  split; [|split; reflexivity].
  intros a st err. rewrite GetProposalKey_eq. simpl.
  destruct (rotate_KeyIndex a) as [p|[i a']]; eauto.
Qed.

(** C10, as stated, fails: a configured key index that is out of range for
    the remote key list does no harm as long as it is not the one under the
    cursor.  With [KeyIndexes = [0, 5]], the cursor at 0 and one remote key,
    the call returns. *)
Lemma GetProposalKey_out_of_range_index_not_selected :
  exists st',
    5 ∈ [0; 5] /\
    len (Keys {| Keys := [ {| Index := 0; SequenceNumber := 9 |} ] |}) <= 5 /\
    GetProposalKey {| Address := 1%N; PrivateKeyInHex := "key";
                      KeyIndexes := [0; 5]; nextKeyIndexIndex := 0 |}
                   (fun _ => (Some {| Keys := [ {| Index := 0; SequenceNumber := 9 |} ] |}, None))
                   initial_state =
    Ok (Some {| Index := 0; SequenceNumber := 9 |}, None) st'.
Proof.
  eexists. split; [set_solver|]. split; [by vm_compute|]. reflexivity.
Qed.

(** C10, amended.  [GetProposalKey] takes the key index [i] under the cursor
    (an element of [KeyIndexes], not a position of it) and reads
    [account.Keys[i]].  When [i] is negative or at least the number of keys
    of the remote account, the call panics with an index out of range and
    the state is left as it was.  When [i] is a position of the remote key
    list, the key at that position is the one the call works on: it returns
    the wrapped error if the client reported one, and else the key with the
    sequence number [getSeqNum] hands out for it. *)
Theorem GetProposalKey_positional_index a flowClient st i account :
  index (KeyIndexes a) (nextKeyIndexIndex a) = Some i ->
  (flowClient (Address a)).1 = Some account ->
  (i < 0 \/ len (Keys account) <= i ->
     GetProposalKey a flowClient st = Panic IndexOutOfRange st) /\
  (0 <= i < len (Keys account) ->
     exists k,
       Keys account !! Z.to_nat i = Some k /\
       match (flowClient (Address a)).2 with
       | Some err =>
           GetProposalKey a flowClient st =
           Ok (None, Some (Errorf "error in flow_helpers.Account.GetProposalKey" err)) st
       | None =>
           exists n st',
             getSeqNum (Address a) k st = Ok n st' /\
             GetProposalKey a flowClient st =
             Ok (Some (with_SequenceNumber n k), None) st'
       end).
Proof.
  intros Hi Hacc.
  destruct (rotate_KeyIndex_returns a i Hi) as [a' Hrot].
  rewrite GetProposalKey_eq, Hrot, Hacc. split.
  - intros Hout. apply index_None in Hout. by rewrite Hout.
  - intros Hin.
    destruct (index (Keys account) i) as [k|] eqn:Hk.
    + exists k. split; [by apply index_Some in Hk as [_ ?]|].
      destruct ((flowClient (Address a)).2) as [err|]; [done|].
      eexists _, _. split; [apply getSeqNum_eq | done].
    + apply index_None in Hk. lia.
Qed.

(** With [KeyIndexes = [0, 5]], the cursor at 1 and one remote key, the
    call reads [account.Keys[5]] and panics. *)
Lemma GetProposalKey_positional_index_witness :
  GetProposalKey {| Address := 1%N; PrivateKeyInHex := "key";
                    KeyIndexes := [0; 5]; nextKeyIndexIndex := 1 |}
                 (fun _ => (Some {| Keys := [ {| Index := 0; SequenceNumber := 9 |} ] |}, None))
                 initial_state =
  Panic IndexOutOfRange initial_state.
Proof.
  destruct (GetProposalKey_positional_index
              {| Address := 1%N; PrivateKeyInHex := "key";
                 KeyIndexes := [0; 5]; nextKeyIndexIndex := 1 |}
              (fun _ => (Some {| Keys := [ {| Index := 0; SequenceNumber := 9 |} ] |}, None))
              initial_state 5 {| Keys := [ {| Index := 0; SequenceNumber := 9 |} ] |}
              eq_refl eq_refl) as [Hpanic _].
  apply Hpanic. right. by vm_compute.
Defined.

End proposal_key_claims.

(** ** Concurrent calls of the allocator *)

Section goroutines.

Implicit Types (cfg : Config) (g : Goroutine) (gs : list Goroutine) (t : nat).

(** A goroutine that has not returned moves on without returning. *)
Lemma omap_returned_insert_None gs t g pc :
  gs !! t = Some g -> returned_value g = None ->
  (forall v, pc <> Returned v) ->
  omap returned_value (<[t := set_pc pc g]> gs) = omap returned_value gs.
Proof.
  revert t. induction gs as [|g0 gs IH]; intros t Hg Hnone Hpc; [done|].
  destruct t as [|t]; simpl in *.
  - injection Hg as ->. rewrite Hnone.
    unfold returned_value. simpl. destruct pc; try done. by destruct (Hpc v).
  - pose proof (IH t Hg Hnone Hpc) as IH'. unfold omap in IH'. by rewrite IH'.
Qed.

(** A goroutine returns [v]. *)
Lemma omap_returned_insert_Some gs t g v :
  gs !! t = Some g -> returned_value g = None ->
  omap returned_value (<[t := set_pc (Returned v) g]> gs) ≡ₚ
  omap returned_value gs ++ [v].
Proof.
  revert t. induction gs as [|g0 gs IH]; intros t Hg Hnone; [done|].
  destruct t as [|t]; simpl in *.
  - injection Hg as ->. rewrite Hnone.
    change (returned_value (set_pc (Returned v) g)) with (Some v). simpl.
    by rewrite Permutation_cons_append.
  - pose proof (IH t Hg Hnone) as IH'. unfold omap in IH'.
    destruct (returned_value g0); simpl; by rewrite IH'.
Qed.

Lemma all_returned_length cfg :
  all_returned cfg -> length (returned_values cfg) = length (goroutines cfg).
Proof.
  unfold all_returned, returned_values.
  induction 1 as [|g gs [v Hv] _ IH]; [done|].
  unfold omap in *. simpl. rewrite Hv. simpl. by rewrite IH.
Qed.

Lemma entry_after_S c r j :
  entry_after c r (S j) = Some (handed_out c r j).
Proof. reflexivity. Qed.

Lemma handed_out_seq_S c r n :
  handed_out c r <$> seq 0 (S n) =
  (handed_out c r <$> seq 0 n) ++ [handed_out c r n].
Proof. by rewrite seq_S, fmap_app. Qed.

End goroutines.

Section mutual_exclusion.

Context (address : flow_Address) (key : flow_AccountKey) (c : option Z).

Implicit Types (cfg : Config) (g : Goroutine) (t h : nat) (events : list Z).

Local Abbreviation r := (SequenceNumber key).
Local Abbreviation same_call := (fun g => g_address g = address /\ g_key g = key).

(** The goroutine [h] takes a step into or inside the critical section. *)
Lemma coherent_inside cfg events h g pc' st' :
  Forall same_call (goroutines cfg) ->
  events = handed_out c r <$> seq 0 (length events) ->
  returned_values cfg ≡ₚ events ->
  goroutines cfg !! h = Some g ->
  returned_value g = None ->
  (forall t g', t <> h -> goroutines cfg !! t = Some g' -> idle (g_pc g')) ->
  (forall v, pc' <> Returned v) ->
  holding address key c (length events) st' pc' ->
  coherent address key c
    {| shared := st'; seqNumLock := true;
       goroutines := <[h := set_pc pc' g]> (goroutines cfg) |} events.
Proof.
  intros Hargs Hev Hperm Hg Hnone Hidle Hpc Hhold.
  assert (h < length (goroutines cfg))%nat as Hlt by (by eapply lookup_lt_Some).
  split; [|split; [|split]]; simpl.
  - apply Forall_insert; [done|].
    by apply (Forall_lookup_1 _ _ _ _ Hargs Hg).
  - done.
  - unfold returned_values. simpl.
    rewrite omap_returned_insert_None; done.
  - exists h, (set_pc pc' g). split; [by apply list_lookup_insert_eq|].
    split; [done|].
    intros t g' Hne Hg'. rewrite list_lookup_insert_ne in Hg' by done.
    by apply (Hidle t).
Qed.

(** The goroutine [h] releases the mutex and returns. *)
Lemma coherent_unlock cfg events h g v :
  Forall same_call (goroutines cfg) ->
  events = handed_out c r <$> seq 0 (length events) ->
  returned_values cfg ≡ₚ events ->
  goroutines cfg !! h = Some g ->
  returned_value g = None ->
  (forall t g', t <> h -> goroutines cfg !! t = Some g' -> idle (g_pc g')) ->
  holding address key c (length events) (shared cfg) (AtUnlock v) ->
  coherent address key c
    {| shared := shared cfg; seqNumLock := false;
       goroutines := <[h := set_pc (Returned v) g]> (goroutines cfg) |}
    (events ++ [v]).
Proof.
  intros Hargs Hev Hperm Hg Hnone Hidle [Hc ->].
  assert (h < length (goroutines cfg))%nat as Hlt by (by eapply lookup_lt_Some).
  assert (length (events ++ [handed_out c r (length events)]) = S (length events))
    as Hlen by (rewrite length_app; simpl; lia).
  split; [|split; [|split]]; simpl.
  - apply Forall_insert; [done|].
    by apply (Forall_lookup_1 _ _ _ _ Hargs Hg).
  - rewrite Hlen, handed_out_seq_S. by rewrite <- Hev.
  - unfold returned_values. simpl.
    rewrite omap_returned_insert_Some by done.
    by apply Permutation_app_tail.
  - rewrite Hlen, entry_after_S. split; [done|].
    apply Forall_lookup_2. intros t g' Hg'.
    destruct (decide (t = h)) as [->|Hne].
    + rewrite list_lookup_insert_eq in Hg' by done. injection Hg' as <-.
      right. by exists (handed_out c r (length events)).
    + rewrite list_lookup_insert_ne in Hg' by done. by apply (Hidle t).
Qed.

(** Every step keeps the invariant; a step that completes a call adds the
    value it returns to the events. *)
Lemma step_coherent cfg events t cfg' e :
  coherent address key c cfg events ->
  step t cfg = (cfg', e) ->
  coherent address key c cfg' (events ++ option_list e).
Proof.
  intros Hcoh Hstep.
  assert (forall cfg'' : Config, cfg'' = cfg ->
            coherent address key c cfg'' (events ++ option_list None)) as Hsame.
  { intros ? ->. simpl. by rewrite app_nil_r. }
  destruct Hcoh as (Hargs & Hev & Hperm & Hlock).
  unfold step in Hstep.
  destruct (goroutines cfg !! t) as [g|] eqn:Hg;
    [|injection Hstep as <- <-; by apply Hsame].
  destruct (Forall_lookup_1 _ _ _ _ Hargs Hg) as [Haddr Hkey].
  rewrite Haddr, Hkey in Hstep.
  destruct (seqNumLock cfg) eqn:Hl.
  - destruct Hlock as (h & gh & Hh & Hhold & Hidle).
    destruct (decide (t = h)) as [->|Hne].
    + assert (gh = g) as -> by congruence.
      assert (forall pc' st', (forall v, pc' <> Returned v) ->
                returned_value g = None ->
                holding address key c (length events) st' pc' ->
                coherent address key c
                  {| shared := st'; seqNumLock := true;
                     goroutines := <[h := set_pc pc' g]> (goroutines cfg) |}
                  (events ++ option_list None)) as Hin.
      { intros pc' st' Hpc' Hnone Hhold'. simpl. rewrite app_nil_r.
        by apply coherent_inside. }
      unfold returned_value in Hin.
      destruct (g_pc g) eqn:Hpc; simpl in Hhold; try done.
      * (* lines 97-103 *)
        unfold statement in Hstep.
        rewrite run_bind, seqNum_init_eq, run_ret in Hstep.
        injection Hstep as <- <-. apply Hin; [done..|]. simpl.
        split; [apply initialised_ready|]. by rewrite cached_initialised.
      * (* line 105 *)
        destruct Hhold as [Hready Hc].
        unfold statement in Hstep. rewrite run_bind, run_gets, run_ret in Hstep.
        injection Hstep as <- <-. rewrite Hc.
        destruct (entry_after c r (length events)) as [prev|] eqn:Hentry.
        -- destruct (Z.leb_spec r prev).
           ++ apply Hin; [done..|]. simpl. split; [done|].
              exists prev. by rewrite Hentry.
           ++ apply Hin; [done..|]. simpl. rewrite Hentry. split; [done|].
              split; [done|]. simpl.
              destruct (Z.leb_spec r prev); [lia | done].
        -- apply Hin; [done..|]. simpl. by rewrite Hentry.
      * (* line 106 *)
        destruct Hhold as (Hready & prev & Hc & Hentry & Hle).
        unfold statement in Hstep.
        rewrite run_bind, seqNum_increment_ready, run_ret in Hstep by done.
        injection Hstep as <- <-. apply Hin; [done..|]. simpl.
        rewrite cached_assigned_eq, Hc. unfold handed_out. rewrite Hentry. simpl.
        destruct (Z.leb_spec r prev); [done | lia].
      * (* line 108 *)
        destruct Hhold as (Hready & Hc & Halloc).
        unfold statement in Hstep.
        rewrite run_bind, seqNum_assign_ready, run_ret in Hstep by done.
        injection Hstep as <- <-. apply Hin; [done..|]. simpl.
        rewrite cached_assigned_eq. unfold handed_out. by rewrite Halloc.
      * (* line 111 *)
        unfold statement in Hstep. rewrite run_bind, run_gets, run_ret in Hstep.
        injection Hstep as <- <-. apply Hin; [done..|]. simpl.
        by rewrite Hhold.
      * (* the deferred Unlock *)
        injection Hstep as <- <-. simpl.
        apply coherent_unlock; try done.
        unfold returned_value. by rewrite Hpc.
    + destruct (Hidle t g Hne Hg) as [Hpc|[v Hpc]]; rewrite Hpc in Hstep;
        injection Hstep as <- <-; by apply Hsame.
  - destruct Hlock as [Hc Hall].
    destruct (Forall_lookup_1 _ _ _ _ Hall Hg) as [Hpc|[v Hpc]]; rewrite Hpc in Hstep.
    + injection Hstep as <- <-. simpl. rewrite app_nil_r.
      apply coherent_inside; try done.
      * unfold returned_value. by rewrite Hpc.
      * intros t' g' _ Hg'. by apply (Forall_lookup_1 _ _ _ _ Hall Hg').
    + injection Hstep as <- <-. by apply Hsame.
Qed.

End mutual_exclusion.

Section schedules.

Implicit Types (cfg : Config) (g : Goroutine) (t : nat) (events : list Z)
  (schedule : list nat).

Lemma run_schedule_cons t schedule cfg :
  run_schedule (t :: schedule) cfg =
  ((run_schedule schedule (step t cfg).1).1,
   option_list (step t cfg).2 ++ (run_schedule schedule (step t cfg).1).2).
Proof.
  simpl. destruct (step t cfg) as [cfg1 e]. simpl.
  by destruct (run_schedule schedule cfg1).
Qed.

Lemma run_schedule_app schedule1 schedule2 cfg :
  run_schedule (schedule1 ++ schedule2) cfg =
  ((run_schedule schedule2 (run_schedule schedule1 cfg).1).1,
   (run_schedule schedule1 cfg).2 ++
   (run_schedule schedule2 (run_schedule schedule1 cfg).1).2).
Proof.
  revert cfg. induction schedule1 as [|t schedule1 IH]; intros cfg.
  - simpl. by destruct (run_schedule schedule2 cfg).
  - rewrite <- app_comm_cons, !run_schedule_cons, IH. simpl.
    by rewrite app_assoc.
Qed.

Lemma step_length t cfg :
  length (goroutines (step t cfg).1) = length (goroutines cfg).
Proof.
  unfold step. destruct (goroutines cfg !! t) as [g|]; [|done].
  destruct (g_pc g);
    repeat match goal with
           | |- context [match ?o with Ok _ _ => _ | Panic _ _ => _ end] => destruct o
           | |- context [if ?b then _ else _] => destruct b
           end;
    simpl; by rewrite ?length_insert.
Qed.

Lemma run_schedule_length schedule cfg :
  length (goroutines (run_schedule schedule cfg).1) = length (goroutines cfg).
Proof.
  revert cfg. induction schedule as [|t schedule IH]; intros cfg; [done|].
  rewrite run_schedule_cons. simpl. by rewrite IH, step_length.
Qed.

(** Every schedule keeps the invariant. *)
Lemma run_schedule_coherent address key c schedule cfg events :
  coherent address key c cfg events ->
  coherent address key c (run_schedule schedule cfg).1
    (events ++ (run_schedule schedule cfg).2).
Proof.
  revert cfg events. induction schedule as [|t schedule IH]; intros cfg events Hcoh.
  - simpl. by rewrite app_nil_r.
  - rewrite run_schedule_cons. simpl. rewrite app_assoc. apply IH.
    apply (step_coherent address key c cfg events t); [done|].
    by destruct (step t cfg).
Qed.

Lemma omap_returned_replicate n g :
  returned_value g = None -> omap returned_value (replicate n g) = [].
Proof.
  intros Hnone. induction n as [|n IH]; [done|].
  unfold omap in *. simpl. by rewrite Hnone.
Qed.

Lemma launch_coherent n address key st :
  coherent address key (cached st address (Index key)) (launch n address key st) [].
Proof.
  split; [|split; [|split]]; simpl.
  - by apply Forall_replicate.
  - done.
  - unfold returned_values. simpl. by rewrite omap_returned_replicate.
  - split; [done|]. apply Forall_replicate. by left.
Qed.

(** Under the invariant no goroutine has crashed. *)
Lemma coherent_not_crashed address key c cfg events :
  coherent address key c cfg events ->
  Forall (fun g => ~ crashed g) (goroutines cfg).
Proof.
  intros (_ & _ & _ & Hlock). apply Forall_lookup_2. intros t g Hg [p Hp].
  assert (~ idle (g_pc g)) as Hnot.
  { rewrite Hp. intros [?|[v ?]]; discriminate. }
  destruct (seqNumLock cfg).
  - destruct Hlock as (h & gh & Hh & Hhold & Hidle).
    destruct (decide (t = h)) as [->|Hne].
    + assert (gh = g) as -> by congruence. rewrite Hp in Hhold. done.
    + by apply Hnot, (Hidle t).
  - destruct Hlock as [_ Hall]. by apply Hnot, (Forall_lookup_1 _ _ _ _ Hall Hg).
Qed.

Lemma returned_values_length cfg :
  (length (returned_values cfg) <= length (goroutines cfg))%nat.
Proof.
  unfold returned_values. induction (goroutines cfg) as [|g gs IH]; [done|].
  unfold omap in *. simpl. destruct (returned_value g); simpl; lia.
Qed.

End schedules.

Section solo.

Implicit Types (cfg : Config) (g : Goroutine) (gs : list Goroutine) (t : nat).

Lemma set_pc_id g : set_pc (g_pc g) g = g.
Proof. by destruct g. Qed.

(** A step of the goroutine [t], spelled out on the configuration in which
    it stands at [pc]. *)
Lemma step_insert st b gs t g pc :
  (t < length gs)%nat ->
  step t {| shared := st; seqNumLock := b; goroutines := <[t := set_pc pc g]> gs |} =
  match pc with
  | AtLock =>
      if b
      then ({| shared := st; seqNumLock := b; goroutines := <[t := set_pc pc g]> gs |}, None)
      else ({| shared := st; seqNumLock := true;
               goroutines := <[t := set_pc AtInit g]> gs |}, None)
  | AtUnlock v =>
      ({| shared := st; seqNumLock := false;
          goroutines := <[t := set_pc (Returned v) g]> gs |}, Some v)
  | Returned _ | Crashed _ =>
      ({| shared := st; seqNumLock := b; goroutines := <[t := set_pc pc g]> gs |}, None)
  | _ =>
      match statement (g_address g) (g_key g) pc st with
      | Ok pc' st' =>
          ({| shared := st'; seqNumLock := b;
              goroutines := <[t := set_pc pc' g]> gs |}, None)
      | Panic p st' =>
          ({| shared := st'; seqNumLock := false;
              goroutines := <[t := set_pc (Crashed p) g]> gs |}, None)
      end
  end.
Proof.
  intros Ht. unfold step. cbn [goroutines shared seqNumLock].
  rewrite list_lookup_insert_eq by done.
  change (g_pc (set_pc pc g)) with pc.
  change (g_address (set_pc pc g)) with (g_address g).
  change (g_key (set_pc pc g)) with (g_key g).
  destruct pc;
    repeat match goal with
           | |- context [match ?o with Ok _ _ => _ | Panic _ _ => _ end] => destruct o
           | |- context [if ?b then _ else _] => destruct b
           end;
    by rewrite ?list_insert_insert_eq.
Qed.

Lemma run_schedule_step t schedule cfg cfg1 e cfg2 es :
  step t cfg = (cfg1, e) ->
  run_schedule schedule cfg1 = (cfg2, es) ->
  run_schedule (t :: schedule) cfg = (cfg2, option_list e ++ es).
Proof. intros Hstep Hrun. simpl. by rewrite Hstep, Hrun. Qed.

(** One step of a run, by [step_insert] and the equations [tac] brings. *)
Local Ltac take_step tac :=
  eapply run_schedule_step;
  [ rewrite step_insert by done; unfold statement; tac; reflexivity | ].

(** A goroutine that finds the mutex free and takes its six steps in a row
    does what the sequential [getSeqNum] does. *)
Lemma solo_run cfg t g :
  seqNumLock cfg = false ->
  goroutines cfg !! t = Some g ->
  g_pc g = AtLock ->
  run_schedule (replicate 6 t) cfg =
  ({| shared := getSeqNum_state (g_address g) (g_key g) (shared cfg);
      seqNumLock := false;
      goroutines :=
        <[t := set_pc (Returned (allocated (cached (shared cfg) (g_address g) (Index (g_key g)))
                                           (SequenceNumber (g_key g)))) g]>
          (goroutines cfg) |},
   [allocated (cached (shared cfg) (g_address g) (Index (g_key g)))
              (SequenceNumber (g_key g))]).
Proof.
  intros Hlock Hg Hpc.
  assert (t < length (goroutines cfg))%nat as Ht by (by eapply lookup_lt_Some).
  destruct cfg as [st b gs]. cbn [seqNumLock goroutines shared] in *. subst b.
  pose proof (initialised_ready (g_address g) st) as Hready.
  change (replicate 6 t) with [t; t; t; t; t; t].
  assert (gs = <[t := set_pc AtLock g]> gs) as Hgs.
  { rewrite <- Hpc, set_pc_id. by rewrite list_insert_id. }
  rewrite Hgs at 1. clear Hgs.
  rewrite getSeqNum_state_assigned.
  enough (exists events,
            run_schedule [t; t; t; t; t; t]
              {| shared := st; seqNumLock := false;
                 goroutines := <[t := set_pc AtLock g]> gs |} =
            ({| shared :=
                  assigned (g_address g) (Index (g_key g))
                    (allocated (cached st (g_address g) (Index (g_key g)))
                               (SequenceNumber (g_key g))) st;
                seqNumLock := false;
                goroutines :=
                  <[t := set_pc (Returned
                                   (allocated (cached st (g_address g) (Index (g_key g)))
                                              (SequenceNumber (g_key g)))) g]> gs |},
             events) /\
            events = [allocated (cached st (g_address g) (Index (g_key g)))
                                (SequenceNumber (g_key g))])
    as (events & -> & ->); [done|].
  destruct (cached st (g_address g) (Index (g_key g))) as [prev|] eqn:Hc;
    cbn [allocated]; [destruct (SequenceNumber (g_key g) <=? prev) eqn:Hle|].
  - (* the entry is ahead of the remote number: line 106 *)
    eexists. split.
    + take_step idtac.
      take_step ltac:(rewrite run_bind, seqNum_init_eq, run_ret).
      take_step ltac:(rewrite run_bind, run_gets, run_ret, cached_initialised, Hc, Hle).
      take_step ltac:(rewrite run_bind, seqNum_increment_ready, run_ret by done;
                      rewrite cached_initialised, Hc, assigned_initialised).
      take_step ltac:(rewrite run_bind, run_gets, run_ret, cached_assigned_eq).
      take_step idtac.
      reflexivity.
    + reflexivity.
  - (* the remote number is ahead: line 108 *)
    eexists. split.
    + take_step idtac.
      take_step ltac:(rewrite run_bind, seqNum_init_eq, run_ret).
      take_step ltac:(rewrite run_bind, run_gets, run_ret, cached_initialised, Hc, Hle).
      take_step ltac:(rewrite run_bind, seqNum_assign_ready, run_ret by done;
                      rewrite assigned_initialised).
      take_step ltac:(rewrite run_bind, run_gets, run_ret, cached_assigned_eq).
      take_step idtac.
      reflexivity.
    + reflexivity.
  - (* no entry: line 108 *)
    eexists. split.
    + take_step idtac.
      take_step ltac:(rewrite run_bind, seqNum_init_eq, run_ret).
      take_step ltac:(rewrite run_bind, run_gets, run_ret, cached_initialised, Hc).
      take_step ltac:(rewrite run_bind, seqNum_assign_ready, run_ret by done;
                      rewrite assigned_initialised).
      take_step ltac:(rewrite run_bind, run_gets, run_ret, cached_assigned_eq).
      take_step idtac.
      reflexivity.
    + reflexivity.
Qed.

(** Run one after the other from number [k] on, the goroutines all
    return. *)
Lemma one_by_one_from m k cfg :
  seqNumLock cfg = false ->
  length (goroutines cfg) = (k + m)%nat ->
  (forall t g, goroutines cfg !! t = Some g -> (t < k)%nat -> is_Some (returned_value g)) ->
  (forall t g, goroutines cfg !! t = Some g -> (k <= t)%nat -> g_pc g = AtLock) ->
  all_returned (run_schedule (t ← seq k m; replicate 6 t) cfg).1.
Proof.
  revert k cfg. induction m as [|m IH]; intros k cfg Hlock Hlen Hdone Htodo.
  - simpl. apply Forall_lookup_2. intros t g Hg.
    apply (Hdone t g Hg). apply lookup_lt_Some in Hg. lia.
  - rewrite <- cons_seq, bind_cons, run_schedule_app.
    destruct (lookup_lt_is_Some_2 (goroutines cfg) k) as [g Hg]; [lia|].
    rewrite (solo_run cfg k g Hlock Hg (Htodo k g Hg (le_n k))). simpl.
    apply IH; simpl.
    + done.
    + rewrite length_insert. lia.
    + intros t g' Hg' Ht. destruct (decide (t = k)) as [->|Hne].
      * rewrite list_lookup_insert_eq in Hg' by (by eapply lookup_lt_Some).
        injection Hg' as <-. by eexists.
      * rewrite list_lookup_insert_ne in Hg' by done. apply (Hdone t g' Hg'). lia.
    + intros t g' Hg' Ht. rewrite list_lookup_insert_ne in Hg' by lia.
      apply (Htodo t g' Hg'). lia.
Qed.

(** The schedule [one_by_one] completes all the calls. *)
Lemma one_by_one_completes n address key st :
  all_returned (run_schedule (one_by_one n) (launch n address key st)).1.
Proof.
  apply one_by_one_from; simpl.
  - done.
  - by rewrite length_replicate.
  - intros t g _ Ht. lia.
  - intros t g Hg _. apply lookup_replicate in Hg as [-> _]. done.
Qed.

End solo.

Section no_wrap.

Lemma allocated_no_wrap c r :
  is_uint64 r ->
  (forall p, c = Some p -> is_uint64 p /\ p <> max_uint64) ->
  r <= allocated c r /\ is_uint64 (allocated c r).
Proof.
  intros Hr Hc. destruct c as [p|]; simpl; [|split; [lia | done]].
  destruct (Hc p eq_refl) as [Hp Hmax].
  destruct (Z.leb_spec r p).
  - rewrite wrap_uint64_succ by done.
    unfold is_uint64, max_uint64 in *. lia.
  - split; [lia | done].
Qed.

(** As long as the increments stay below [2^64] the values handed out are
    consecutive. *)
Lemma handed_out_no_wrap c r (j : nat) :
  is_uint64 r ->
  (forall p, c = Some p -> is_uint64 p /\ p <> max_uint64) ->
  allocated c r + Z.of_nat j < uint64_modulus ->
  handed_out c r j = allocated c r + Z.of_nat j.
Proof.
  intros Hr Hc. destruct (allocated_no_wrap c r Hr Hc) as [Hge Hv0].
  induction j as [|j IH]; intros Hlt.
  - unfold handed_out. simpl. lia.
  - unfold handed_out in *. simpl entry_after. rewrite IH by lia. simpl.
    destruct (Z.leb_spec r (allocated c r + Z.of_nat j)); [|lia].
    rewrite wrap_uint64_small; [lia|].
    unfold is_uint64 in *. lia.
Qed.

End no_wrap.

Section concurrency_claims.

(** The mutex is what the property rests on: without it two goroutines that
    take their steps in turn both find no entry, both store the remote
    number, and both return it. *)
Remark without_mutex_duplicates :
  (run_without_mutex [0; 1; 0; 1; 0; 1; 0; 1; 0; 1; 0; 1]%nat
     (launch 2 1%N {| Index := 0; SequenceNumber := 7 |} initial_state)).2 = [7; 7].
Proof. reflexivity. Qed.

(** C9, as stated, fails where the [uint64] increment wraps around: 1000
    goroutines launched with the remote number [2^64 - 1] on an empty cache
    and run one after the other all return, and the first three values
    returned are [2^64 - 1], 0 and [2^64 - 1] again. *)
Lemma getSeqNum_concurrent_calls_wrap :
  all_returned
    (run_schedule (one_by_one 1000)
       (launch 1000 1%N {| Index := 0; SequenceNumber := max_uint64 |} initial_state)).1 /\
  take 3 (run_schedule (one_by_one 1000)
            (launch 1000 1%N {| Index := 0; SequenceNumber := max_uint64 |} initial_state)).2 =
  [18446744073709551615; 0; 18446744073709551615].
Proof.
  split; [apply one_by_one_completes|].
  by vm_compute.
Qed.

(** C9 (concurrency safety), amended.  [n] goroutines (1000 in the claim)
    call [getSeqNum] concurrently for the same pair and with the same remote
    sequence number; the entry of the pair is not at [2^64 - 1] and the [n]
    values to hand out stay below [2^64].  Whatever the schedule, no call
    panics, and the values returned so far are, in the order in which the
    calls returned, the first value [v0] handed out, [v0 + 1], [v0 + 2] and
    so on: each is the one before plus one, and the goroutines hold
    pairwise distinct values.  When all calls have returned there are [n]
    of them, and the schedule that runs the goroutines one after the other
    makes them all return. *)
Theorem getSeqNum_concurrent_calls address key st n :
  is_uint64 (SequenceNumber key) ->
  (forall p, cached st address (Index key) = Some p -> is_uint64 p /\ p <> max_uint64) ->
  allocated (cached st address (Index key)) (SequenceNumber key) + Z.of_nat n
    <= uint64_modulus ->
  (forall schedule cfg events,
     run_schedule schedule (launch n address key st) = (cfg, events) ->
     Forall (fun g => ~ crashed g) (goroutines cfg) /\
     returned_values cfg ≡ₚ events /\
     NoDup (returned_values cfg) /\
     events =
       (fun j : nat =>
          allocated (cached st address (Index key)) (SequenceNumber key) + Z.of_nat j)
         <$> seq 0 (length events) /\
     (forall i x y, events !! i = Some x -> events !! S i = Some y -> y = x + 1) /\
     (all_returned cfg -> length events = n)) /\
  all_returned (run_schedule (one_by_one n) (launch n address key st)).1.
Proof.
  intros Hr Hc Hbound. split; [|apply one_by_one_completes].
  intros schedule cfg events Hrun.
  pose proof (run_schedule_coherent address key _ schedule _ []
                (launch_coherent n address key st)) as Hcoh.
  pose proof (run_schedule_length schedule (launch n address key st)) as Hlen.
  rewrite Hrun in Hcoh, Hlen. simpl in Hcoh, Hlen. rewrite length_replicate in Hlen.
  pose proof (coherent_not_crashed _ _ _ _ _ Hcoh) as Hcrash.
  destruct Hcoh as (_ & Hev & Hperm & _).
  assert (length events <= n)%nat as Hle.
  { rewrite <- Hperm, <- Hlen. apply returned_values_length. }
  assert (events =
          (fun j : nat =>
             allocated (cached st address (Index key)) (SequenceNumber key) + Z.of_nat j)
            <$> seq 0 (length events)) as Hev'.
  { rewrite Hev at 1. apply list_fmap_ext. intros i j Hj.
    apply lookup_seq in Hj as [-> Hlt]. simpl.
    apply handed_out_no_wrap; [done..|lia]. }
  assert (NoDup events) as Hnodup.
  { rewrite Hev'. apply NoDup_fmap_2; [|apply NoDup_seq].
    intros j1 j2 Hj. lia. }
  split; [done|]. split; [done|]. split; [by rewrite Hperm|].
  split; [done|]. split.
  - intros i x y Hx Hy. rewrite Hev' in Hx, Hy.
    rewrite list_lookup_fmap in Hx, Hy.
    destruct (seq 0 (length events) !! i) as [j|] eqn:Hj; [|done].
    destruct (seq 0 (length events) !! S i) as [j'|] eqn:Hj'; [|done].
    apply lookup_seq in Hj as [-> _]. apply lookup_seq in Hj' as [-> _].
    simpl in *. injection Hx as <-. injection Hy as <-. lia.
  - intros Hall. apply all_returned_length in Hall.
    rewrite <- Hperm, Hall. done.
Qed.

(** 1000 goroutines with the remote number 7 on an empty cache, run one
    after the other: they all return, the values 7 to 1006. *)
Lemma getSeqNum_concurrent_calls_witness :
  all_returned
    (run_schedule (one_by_one 1000)
       (launch 1000 1%N {| Index := 0; SequenceNumber := 7 |} initial_state)).1 /\
  (run_schedule (one_by_one 1000)
     (launch 1000 1%N {| Index := 0; SequenceNumber := 7 |} initial_state)).2 =
  (fun j : nat => 7 + Z.of_nat j) <$> seq 0 1000.
Proof.
  destruct (getSeqNum_concurrent_calls 1%N {| Index := 0; SequenceNumber := 7 |}
              initial_state 1000) as [Hsafe Hlive].
  - split; by vm_compute.
  - intros p Hp. discriminate Hp.
  - by vm_compute.
  - split; [exact Hlive|].
    destruct (run_schedule (one_by_one 1000)
                (launch 1000 1%N {| Index := 0; SequenceNumber := 7 |} initial_state))
      as [cfg events] eqn:Hrun.
    destruct (Hsafe _ cfg events Hrun) as (_ & _ & _ & Hev & _ & Hlen).
    simpl in *. rewrite (Hlen Hlive) in Hev. exact Hev.
Defined.

End concurrency_claims.

(** * Further properties of the operations *)

(** ** The allocator, call by call *)

Section allocator_more.

Implicit Types (st : State) (address : flow_Address) (key : flow_AccountKey).


(** X2.  Away from the [uint64] wrap-around (the entry of the pair, if
    any, is not [2^64 - 1]) the number handed out is a [uint64] that is
    never below the remote sequence number and always above the entry the
    call found. *)
Theorem getSeqNum_not_below_remote address key st :
  is_uint64 (SequenceNumber key) ->
  (forall c, cached st address (Index key) = Some c -> is_uint64 c /\ c <> max_uint64) ->
  exists v st',
    getSeqNum address key st = Ok v st' /\
    is_uint64 v /\
    SequenceNumber key <= v /\
    (forall c, cached st address (Index key) = Some c -> c < v).
Proof.
  intros Hr Hc. eexists _, _. split; [apply getSeqNum_eq|].
  destruct (allocated_no_wrap _ _ Hr Hc) as [Hge Hv].
  split; [done|]. split; [done|].
  intros c Hcached. rewrite Hcached. destruct (Hc c Hcached) as [Hu Hmax].
  by apply allocated_above.
Qed.

Lemma getSeqNum_not_below_remote_witness :
  exists v st',
    getSeqNum 1%N {| Index := 0; SequenceNumber := 3 |} state_cached_5 = Ok v st' /\
    3 <= v /\ 5 < v.
Proof.
  destruct (getSeqNum_not_below_remote 1%N {| Index := 0; SequenceNumber := 3 |}
              state_cached_5) as (v & st' & Hrun & _ & Hge & Hgt).
  - split; by vm_compute.
  - intros c [= <-]. split; [split; by vm_compute | by vm_compute].
  - exists v, st'. split; [exact Hrun|]. split; [exact Hge|].
    apply Hgt. reflexivity.
Defined.

End allocator_more.

(** ** The rotator, call by call *)

Section rotator_more.

Implicit Types (st : State) (obj : Account) (a b : loc).

(** What a call that returns has done to its object. *)
Lemma rotate_KeyIndex_inr obj i obj' :
  rotate_KeyIndex obj = inr (i, obj') ->
  in_bounds obj /\
  index (KeyIndexes obj) (nextKeyIndexIndex obj) = Some i /\
  same_fields obj obj'.
Proof.
  unfold rotate_KeyIndex.
  destruct (index (KeyIndexes obj) (nextKeyIndexIndex obj)) as [i0|] eqn:Hi; [|done].
  destruct (rem _ _) as [next|]; [|done].
  intros [= <- <-]. split; [|done].
  apply index_Some in Hi as [Hge Hi]. apply lookup_lt_Some in Hi.
  unfold in_bounds, len. lia.
Qed.

(** The division by zero of line 66 is never reached: an empty list has
    already made the indexing of line 65 panic. *)
Lemma rotate_KeyIndex_inl obj p :
  rotate_KeyIndex obj = inl p -> p = IndexOutOfRange /\ ~ in_bounds obj.
Proof.
  intros Hp. destruct (index (KeyIndexes obj) (nextKeyIndexIndex obj)) as [i|] eqn:Hi.
  - destruct (rotate_KeyIndex_returns obj i Hi) as [obj' Hobj']. congruence.
  - unfold rotate_KeyIndex in Hp. rewrite Hi in Hp. injection Hp as <-.
    split; [done|]. apply index_None in Hi. unfold in_bounds. lia.
Qed.

(** The three ways a call can go. *)
Lemma KeyIndex_cases a st :
  match heap st !! a with
  | None => KeyIndex a st = Panic NilPointerDereference st
  | Some obj =>
      match rotate_KeyIndex obj with
      | inl p => KeyIndex a st = Panic p st
      | inr (i, obj') =>
          KeyIndex a st = Ok i (set_heap (<[a := obj']> (heap st)) st)
      end
  end.
Proof.
  unfold KeyIndex. rewrite run_bind. unfold deref.
  destruct (heap st !! a) as [obj|]; simpl; [|done].
  by destruct (rotate_KeyIndex obj) as [p|[i obj']].
Qed.

(** X3.  A call of [KeyIndex] that returns gives a key index of the list of
    its receiver, the one under the cursor, and changes nothing but the
    cursor of its receiver: the address, the credential and the list of the
    receiver, all other objects, the registry and the sequence cache are as
    before. *)
Theorem KeyIndex_moves_only_cursor a st i st' :
  KeyIndex a st = Ok i st' ->
  exists obj obj',
    heap st !! a = Some obj /\
    index (KeyIndexes obj) (nextKeyIndexIndex obj) = Some i /\
    i ∈ KeyIndexes obj /\
    heap st' !! a = Some obj' /\
    same_fields obj obj' /\
    (forall b, b <> a -> heap st' !! b = heap st !! b) /\
    accounts st' = accounts st /\ seqNumMap st' = seqNumMap st.
Proof.
  intros Hcall. pose proof (KeyIndex_cases a st) as Hcases.
  destruct (heap st !! a) as [obj|] eqn:Ha; [|congruence].
  destruct (rotate_KeyIndex obj) as [p|[i0 obj']] eqn:Hrot; [congruence|].
  rewrite Hcall in Hcases. injection Hcases as -> ->.
  destruct (rotate_KeyIndex_inr _ _ _ Hrot) as (_ & Hi & Hsame).
  exists obj, obj'. split; [done|]. split; [done|]. split.
  - apply index_Some in Hi as [_ Hi]. by eapply list_elem_of_lookup_2.
  - simpl. rewrite lookup_insert_eq. split; [done|]. split; [done|].
    split; [|done]. intros b Hne. by rewrite lookup_insert_ne.
Qed.

Lemma KeyIndex_moves_only_cursor_witness :
  exists obj',
    heap (state_of (KeyIndex 1%positive state_one_account)) !! 1%positive = Some obj' /\
    KeyIndexes obj' = [4; 5; 6].
Proof.
  destruct (KeyIndex_moves_only_cursor 1%positive state_one_account 6
              (state_of (KeyIndex 1%positive state_one_account)) eq_refl)
    as (obj & obj' & Hobj & _ & _ & Hobj' & (_ & _ & Hks) & _).
  exists obj'. split; [exact Hobj'|].
  rewrite Hks. injection Hobj as <-. reflexivity.
Defined.

(** X4.  [KeyIndex] panics exactly when its receiver is nil or the cursor is
    not a position of the list, which is the case of every cursor when the
    list is empty; the panic is then the nil dereference or the index out of
    range of line 65, never the division by zero of line 66, and the state
    is left as it was.  In all other cases the call returns. *)
Theorem KeyIndex_panics_out_of_bounds a st :
  match heap st !! a with
  | None => KeyIndex a st = Panic NilPointerDereference st
  | Some obj =>
      (~ in_bounds obj -> KeyIndex a st = Panic IndexOutOfRange st) /\
      (in_bounds obj -> exists i st', KeyIndex a st = Ok i st') /\
      (KeyIndexes obj = [] -> KeyIndex a st = Panic IndexOutOfRange st)
  end /\
  (forall p st',
     KeyIndex a st = Panic p st' ->
     st' = st /\ (p = NilPointerDereference \/ p = IndexOutOfRange)).
Proof.
  pose proof (KeyIndex_cases a st) as Hcases. split.
  - destruct (heap st !! a) as [obj|] eqn:Ha; [|done].
    assert (~ in_bounds obj -> KeyIndex a st = Panic IndexOutOfRange st) as Hout.
    { intros Hb. by rewrite (rotate_KeyIndex_out_of_bounds obj Hb) in Hcases. }
    split; [done|]. split.
    + intros Hb. destruct (rotate_KeyIndex obj) as [p|[i obj']] eqn:Hrot.
      * by destruct (rotate_KeyIndex_inl _ _ Hrot).
      * eauto.
    + intros Hnil. apply Hout. unfold in_bounds, len. rewrite Hnil. simpl. lia.
  - intros p st' Hpanic. split; [by eapply KeyIndex_panic|].
    destruct (heap st !! a) as [obj|] eqn:Ha.
    + destruct (rotate_KeyIndex obj) as [q|[i obj']] eqn:Hrot; [|congruence].
      destruct (rotate_KeyIndex_inl _ _ Hrot) as [-> _].
      right. congruence.
    + left. congruence.
Qed.

End rotator_more.

(** ** The registry over any sequence of calls *)

Section registry_more.

Implicit Types (st : State) (address : flow_Address) (keyIndexes : list Z)
  (obj : Account) (a b : loc) (c : Call) (cs : list Call).

(** X5.  A first [GetAccount] for an address, with a non-empty list,
    returns a pointer that no object had before and registers it for the
    address; the registrations of all other addresses, all objects there
    were and the sequence cache are as before. *)
Theorem GetAccount_registers_fresh address pk keyIndexes draw st :
  registered st address = None ->
  keyIndexes <> [] ->
  exists a st',
    GetAccount address pk keyIndexes draw st = Ok a st' /\
    heap st !! a = None /\
    registered st' address = Some a /\
    (forall address', address' <> address ->
                      registered st' address' = registered st address') /\
    (forall b obj, heap st !! b = Some obj -> heap st' !! b = Some obj) /\
    seqNumMap st' = seqNumMap st.
Proof.
  intros Hreg Hne.
  assert (0 < len keyIndexes) as Hpos.
  { unfold len. destruct keyIndexes; [done | simpl; lia]. }
  assert (rand_Intn draw (len keyIndexes) = Some (draw mod len keyIndexes)) as Hrand.
  { unfold rand_Intn. destruct (Z.leb_spec (len keyIndexes) 0); [lia | done]. }
  pose proof (GetAccount_fresh address pk keyIndexes draw st _ Hreg Hrand) as Hcall.
  simpl in Hcall.
  eexists _, _. split; [exact Hcall|].
  split; [apply fresh_not_allocated|].
  split; [unfold registered; simpl; apply lookup_insert_eq|].
  split; [|split; [|done]].
  - intros address' Hne'. rewrite !registered_alt. simpl.
    by rewrite lookup_insert_ne.
  - intros b obj Hb. simpl. rewrite lookup_insert_ne; [done|].
    intros Heq. pose proof (fresh_not_allocated st) as Hfresh.
    rewrite Heq in Hfresh. congruence.
Qed.

Lemma GetAccount_registers_fresh_witness :
  exists a st',
    GetAccount 2%N "other" [7] 0 state_one_account = Ok a st' /\
    registered st' 2%N = Some a /\
    registered st' 1%N = Some 1%positive.
Proof.
  destruct (GetAccount_registers_fresh 2%N "other" [7] 0 state_one_account)
    as (a & st' & Hcall & _ & Hreg & Hothers & _).
  - reflexivity.
  - discriminate.
  - exists a, st'. split; [exact Hcall|]. split; [exact Hreg|].
    rewrite Hothers by discriminate. reflexivity.
Defined.

(** One call of any operation leaves every registration in place. *)
Lemma exec_keeps_registered c st address a :
  registered st address = Some a -> registered (exec c st) address = Some a.
Proof.
  intros Hreg.
  destruct c as [address' pk keyIndexes draw | b | acct flowClient | address' key];
    unfold exec.
  - destruct (registered st address') as [existing|] eqn:Hreg'.
    + by rewrite (GetAccount_registered _ _ _ _ _ _ Hreg').
    + assert (address' <> address) as Hne by congruence.
      destruct (rand_Intn draw (len keyIndexes)) as [randomIndex|] eqn:Hrand.
      * rewrite (GetAccount_fresh _ _ _ _ _ _ Hreg' Hrand).
        rewrite registered_alt in *. simpl. by rewrite lookup_insert_ne.
      * rewrite (GetAccount_panic _ _ _ _ _ Hreg' Hrand).
        by rewrite registered_alt in *.
  - pose proof (KeyIndex_cases b st) as Hcases.
    destruct (heap st !! b) as [objb|]; [|by rewrite Hcases].
    destruct (rotate_KeyIndex objb) as [p|[i objb']]; by rewrite Hcases.
  - unfold registered.
    by destruct (GetProposalKey_of_frame acct flowClient st) as [-> _].
  - by rewrite getSeqNum_eq.
Qed.

(** One call of any operation leaves every object in place, with its
    address, its credential and its list. *)
Lemma exec_keeps_fields c st a obj :
  heap st !! a = Some obj ->
  exists obj', heap (exec c st) !! a = Some obj' /\ same_fields obj obj'.
Proof.
  intros Ha.
  destruct c as [address pk keyIndexes draw | b | acct flowClient | address key];
    unfold exec.
  - exists obj. by rewrite (GetAccount_keeps_objects _ _ _ _ _ _ _ Ha).
  - destruct (decide (b = a)) as [->|Hne].
    + pose proof (KeyIndex_cases a st) as Hcases. rewrite Ha in Hcases.
      destruct (rotate_KeyIndex obj) as [p|[i obj']] eqn:Hrot; rewrite Hcases.
      * by exists obj.
      * exists obj'. simpl. rewrite lookup_insert_eq. split; [done|].
        by destruct (rotate_KeyIndex_inr _ _ _ Hrot) as (_ & _ & ?).
    + exists obj. by rewrite KeyIndex_other.
  - exists obj. by destruct (GetProposalKey_of_frame acct flowClient st) as [_ ->].
  - exists obj. by rewrite getSeqNum_eq.
Qed.

Lemma exec_all_keeps_registration cs st address a obj :
  registered st address = Some a ->
  heap st !! a = Some obj ->
  registered (exec_all cs st) address = Some a /\
  exists obj', heap (exec_all cs st) !! a = Some obj' /\ same_fields obj obj'.
Proof.
  revert st obj. induction cs as [|c cs IH]; intros st obj Hreg Ha.
  - split; [done|]. by exists obj.
  - destruct (exec_keeps_fields c st a obj Ha) as (obj1 & Ha1 & Hsame1).
    destruct (IH (exec c st) obj1 (exec_keeps_registered c st _ _ Hreg) Ha1)
      as (Hreg2 & obj2 & Ha2 & Hsame2).
    split; [done|]. exists obj2. split; [done|].
    destruct Hsame1 as (? & ? & ?), Hsame2 as (? & ? & ?).
    repeat split; congruence.
Qed.

(** X6.  An [Account] that is registered stays registered for good: after
    any sequence of calls of the four operations, whether they return or
    panic, the address is registered with the same pointer, and the object
    has the address, the credential and the key-index list it had. *)
Theorem registration_is_permanent cs st address a obj :
  registered st address = Some a ->
  heap st !! a = Some obj ->
  registered (exec_all cs st) address = Some a /\
  exists obj', heap (exec_all cs st) !! a = Some obj' /\ same_fields obj obj'.
Proof. apply exec_all_keeps_registration. Qed.

Lemma registration_is_permanent_witness :
  registered
    (exec_all [Call_KeyIndex 1%positive; Call_GetAccount 1%N "second" [] 0;
               Call_getSeqNum 1%N {| Index := 0; SequenceNumber := 3 |}]
              state_one_account) 1%N = Some 1%positive.
Proof.
  apply (registration_is_permanent _ state_one_account 1%N 1%positive
           {| Address := 1%N; PrivateKeyInHex := "key";
              KeyIndexes := [4; 5; 6]; nextKeyIndexIndex := 2 |});
    reflexivity.
Defined.

End registry_more.

(** ** The states a process can reach *)

Section reachable.

Implicit Types (st : State) (address : flow_Address) (obj : Account)
  (a b : loc) (c : Call) (cs : list Call).

Lemma exec_registry_sound c st :
  registry_sound st -> registry_sound (exec c st).
Proof.
  intros Hsound address a Hreg.
  assert (forall st', accounts st' = accounts st ->
            registered st' address = Some a ->
            exists obj, heap st !! a = Some obj /\ Address obj = address) as Hold.
  { intros st' Haccs Hreg'. apply Hsound. unfold registered in *. by rewrite <- Haccs. }
  assert (forall obj, heap st !! a = Some obj -> Address obj = address ->
            exists obj', heap (exec c st) !! a = Some obj' /\ Address obj' = address)
    as Hkeep.
  { intros obj Ha Haddr. destruct (exec_keeps_fields c st a obj Ha) as (obj' & ? & Hs).
    exists obj'. split; [done|]. destruct Hs as (-> & _). done. }
  destruct c as [address' pk keyIndexes draw | b | acct flowClient | address' key].
  - unfold exec in Hreg |- *.
    destruct (registered st address') as [existing|] eqn:Hreg'.
    + rewrite (GetAccount_registered _ _ _ _ _ _ Hreg') in *. by apply Hsound.
    + destruct (rand_Intn draw (len keyIndexes)) as [randomIndex|] eqn:Hrand.
      * rewrite (GetAccount_fresh _ _ _ _ _ _ Hreg' Hrand) in *. simpl in *.
        rewrite registered_alt in Hreg. simpl in Hreg.
        destruct (decide (address' = address)) as [->|Hne].
        -- rewrite lookup_insert_eq in Hreg. injection Hreg as <-.
           eexists. by rewrite lookup_insert_eq.
        -- rewrite lookup_insert_ne in Hreg by done.
           rewrite <- registered_alt in Hreg.
           destruct (Hsound address a Hreg) as (obj & Ha & Haddr).
           exists obj. split; [|done]. rewrite lookup_insert_ne; [done|].
           intros Heq. pose proof (fresh_not_allocated st) as Hfresh.
           rewrite Heq in Hfresh. congruence.
      * rewrite (GetAccount_panic _ _ _ _ _ Hreg' Hrand) in *. simpl in *.
        apply Hsound. by rewrite registered_alt in *.
  - destruct (Hold (exec (Call_KeyIndex b) st)) as (obj & Ha & Haddr); [|done|by eapply Hkeep].
    unfold exec. pose proof (KeyIndex_cases b st) as Hcases.
    destruct (heap st !! b) as [objb|]; [|by rewrite Hcases].
    destruct (rotate_KeyIndex objb) as [p|[i objb']]; by rewrite Hcases.
  - destruct (Hold (exec (Call_GetProposalKey acct flowClient) st))
      as (obj & Ha & Haddr); [|done|by eapply Hkeep].
    unfold exec. by destruct (GetProposalKey_of_frame acct flowClient st) as [-> _].
  - destruct (Hold (exec (Call_getSeqNum address' key) st))
      as (obj & Ha & Haddr); [|done|by eapply Hkeep].
    unfold exec. by rewrite getSeqNum_eq.
Qed.

Lemma exec_all_registry_sound cs st :
  registry_sound st -> registry_sound (exec_all cs st).
Proof.
  revert st. induction cs as [|c cs IH]; intros st Hsound; [done|].
  apply (IH (exec c st)). by apply exec_registry_sound.
Qed.

Lemma initial_state_registry_sound : registry_sound initial_state.
Proof. intros address a Hreg. discriminate Hreg. Qed.

(** X7.  In every state a process reaches from its start by calls of the
    four operations, each registered address points to an object that
    carries this very address; so no two addresses ever share an [Account]
    object, and no registered pointer dangles. *)
Theorem reachable_registry_sound cs :
  registry_sound (exec_all cs initial_state) /\
  forall address1 address2 a,
    registered (exec_all cs initial_state) address1 = Some a ->
    registered (exec_all cs initial_state) address2 = Some a ->
    address1 = address2.
Proof.
  pose proof (exec_all_registry_sound cs _ initial_state_registry_sound) as Hsound.
  split; [done|]. intros address1 address2 a H1 H2.
  destruct (Hsound _ _ H1) as (obj1 & Ha1 & <-).
  destruct (Hsound _ _ H2) as (obj2 & Ha2 & <-).
  congruence.
Qed.

Lemma exec_objects_in_bounds c st :
  int_sized c -> objects_in_bounds st -> objects_in_bounds (exec c st).
Proof.
  intros Hint Hinv a obj' Ha'.
  destruct c as [address pk keyIndexes draw | b | acct flowClient | address key];
    unfold exec in Ha'.
  - destruct (registered st address) as [existing|] eqn:Hreg.
    + rewrite (GetAccount_registered _ _ _ _ _ _ Hreg) in Ha'. by apply (Hinv a).
    + destruct (rand_Intn draw (len keyIndexes)) as [randomIndex|] eqn:Hrand.
      * rewrite (GetAccount_fresh _ _ _ _ _ _ Hreg Hrand) in Ha'. simpl in Ha'.
        destruct (decide (fresh (dom (heap st)) = a)) as [<-|Hne].
        -- rewrite lookup_insert_eq in Ha'. injection Ha' as <-.
           split; [|done]. unfold in_bounds. simpl.
           by apply rand_Intn_Some in Hrand.
        -- rewrite lookup_insert_ne in Ha' by done. by apply (Hinv a).
      * rewrite (GetAccount_panic _ _ _ _ _ Hreg Hrand) in Ha'. by apply (Hinv a).
  - pose proof (KeyIndex_cases b st) as Hcases.
    destruct (heap st !! b) as [objb|] eqn:Hb;
      [|rewrite Hcases in Ha'; by apply (Hinv a)].
    destruct (Hinv b objb Hb) as [Hbounds Hlen].
    destruct (rotate_KeyIndex_in_bounds objb Hbounds Hlen) as (i & _ & Hrot).
    rewrite Hrot in Hcases. rewrite Hcases in Ha'. simpl in Ha'.
    destruct (decide (b = a)) as [->|Hne].
    + rewrite lookup_insert_eq in Ha'. injection Ha' as <-. split; [|done].
      apply (with_cursor_in_bounds objb). unfold in_bounds in Hbounds. lia.
    + rewrite lookup_insert_ne in Ha' by done. by apply (Hinv a).
  - destruct (GetProposalKey_of_frame acct flowClient st) as [_ Hheap].
    rewrite Hheap in Ha'. by apply (Hinv a).
  - rewrite getSeqNum_eq in Ha'. by apply (Hinv a).
Qed.

Lemma exec_all_objects_in_bounds cs st :
  Forall int_sized cs -> objects_in_bounds st -> objects_in_bounds (exec_all cs st).
Proof.
  revert st. induction cs as [|c cs IH]; intros st Hint Hinv; [done|].
  apply Forall_cons in Hint as [Hc Hcs].
  apply (IH (exec c st)); [done|]. by apply exec_objects_in_bounds.
Qed.

(** X8.  In every state a process reaches from its start, [KeyIndex] on the
    [Account] of any registered address returns: its list is not empty and
    its cursor is in the list.  (The slices passed to [GetAccount] have
    lengths that are [int]s.) *)
Theorem reachable_KeyIndex_returns cs address a :
  Forall int_sized cs ->
  registered (exec_all cs initial_state) address = Some a ->
  exists obj i st',
    heap (exec_all cs initial_state) !! a = Some obj /\
    KeyIndexes obj <> [] /\
    in_bounds obj /\
    KeyIndex a (exec_all cs initial_state) = Ok i st'.
Proof.
  intros Hint Hreg.
  destruct (exec_all_registry_sound cs _ initial_state_registry_sound _ _ Hreg)
    as (obj & Ha & _).
  assert (objects_in_bounds (exec_all cs initial_state)) as Hinv.
  { apply exec_all_objects_in_bounds; [done|]. intros p o Hp. discriminate Hp. }
  destruct (Hinv a obj Ha) as [Hb Hlen].
  destruct (rotate_KeyIndex_in_bounds obj Hb Hlen) as (i & _ & Hrot).
  pose proof (KeyIndex_cases a (exec_all cs initial_state)) as Hcases.
  rewrite Ha, Hrot in Hcases.
  eexists obj, i, _. split; [done|]. split; [|done].
  intros Hnil. unfold in_bounds, len in Hb. rewrite Hnil in Hb. simpl in Hb. lia.
Qed.

Lemma reachable_KeyIndex_returns_witness :
  exists obj i st',
    heap (exec_all [Call_GetAccount 1%N "key" [4; 5; 6] 5; Call_KeyIndex 1%positive;
                    Call_GetAccount 2%N "other" [] 0] initial_state) !! 1%positive
      = Some obj /\
    KeyIndex 1%positive
      (exec_all [Call_GetAccount 1%N "key" [4; 5; 6] 5; Call_KeyIndex 1%positive;
                 Call_GetAccount 2%N "other" [] 0] initial_state) = Ok i st'.
Proof.
  destruct (reachable_KeyIndex_returns
              [Call_GetAccount 1%N "key" [4; 5; 6] 5; Call_KeyIndex 1%positive;
               Call_GetAccount 2%N "other" [] 0] 1%N 1%positive)
    as (obj & i & st' & Hobj & _ & _ & Hcall).
  - repeat apply Forall_cons_2; [split; by vm_compute | exact I | split; by vm_compute
                                | apply Forall_nil_2].
  - reflexivity.
  - exists obj, i, st'. split; [exact Hobj | exact Hcall].
Defined.

End reachable.

(** ** Proposal keys, call after call *)

Section proposal_key_more.

Implicit Types (st : State) (a : Account) (acct : loc)
  (flowClient : flow_Address -> QueryResult).

(** X9.  [GetProposalKey] has a value receiver, so the cursor it advances
    is the one of its own copy: whatever the clients answer, any number of
    calls through a pointer of the registry leaves the registry and every
    [Account] object, cursor included, as they were.  The rotation of the
    registered [Account] does not move, and a later call selects the same
    key index again. *)
Theorem GetProposalKey_keeps_registered_cursor acct flowClients st :
  accounts (exec_all (Call_GetProposalKey acct <$> flowClients) st) = accounts st /\
  heap (exec_all (Call_GetProposalKey acct <$> flowClients) st) = heap st.
Proof.
  revert st. induction flowClients as [|flowClient flowClients IH]; intros st; [done|].
  rewrite fmap_cons.
  change (exec_all (Call_GetProposalKey acct flowClient ::
                    (Call_GetProposalKey acct <$> flowClients)) st)
    with (exec_all (Call_GetProposalKey acct <$> flowClients)
            (exec (Call_GetProposalKey acct flowClient) st)).
  destruct (IH (exec (Call_GetProposalKey acct flowClient) st)) as [-> ->].
  apply GetProposalKey_of_frame.
Qed.

(** X10.  What a call of [GetProposalKey] does to the state.  A call that
    panics, or that returns an error, leaves the state as it was.  A call
    that returns a key has made exactly one call of [getSeqNum], for the
    address of the receiver and the remote key [k] at the position given by
    the key index under the cursor; the key it returns is [k] with the
    number [getSeqNum] handed out.  The cache entry is thus the one of
    [k.Index], the index the remote ledger reports for the key, not the one
    of its position. *)
Theorem GetProposalKey_effect a flowClient st :
  match GetProposalKey a flowClient st with
  | Panic _ st' => st' = st
  | Ok (None, _) st' => st' = st
  | Ok (Some k', err) st' =>
      err = None /\
      exists i account k,
        index (KeyIndexes a) (nextKeyIndexIndex a) = Some i /\
        flowClient (Address a) = (Some account, None) /\
        index (Keys account) i = Some k /\
        Index k' = Index k /\
        getSeqNum (Address a) k st = Ok (SequenceNumber k') st'
  end.
Proof.
  rewrite GetProposalKey_eq.
  destruct (rotate_KeyIndex a) as [p|[i a']] eqn:Hrot; [done|].
  destruct (rotate_KeyIndex_inr _ _ _ Hrot) as (_ & Hi & _).
  destruct (flowClient (Address a)) as [[account|] err] eqn:Hclient; simpl; [|done].
  destruct (index (Keys account) i) as [k|] eqn:Hk; [|done].
  destruct err as [err|]; [done|].
  split; [done|]. exists i, account, k.
  split; [done|]. split; [done|]. split; [done|]. split; [done|].
  apply getSeqNum_eq.
Qed.

(** X11.  Two calls of [GetProposalKey] in a row on the same [Account]
    value, answered alike by the ledger (its view has not caught up), return
    the same key with sequence numbers [v] and [v + 1], the first not below
    the number the ledger reports: a sequence number is not handed out
    twice.  (No [uint64] wraps: the entry is not at [2^64 - 1] and [v + 1]
    is below [2^64].) *)
Theorem GetProposalKey_twice a flowClient st i account k :
  index (KeyIndexes a) (nextKeyIndexIndex a) = Some i ->
  flowClient (Address a) = (Some account, None) ->
  index (Keys account) i = Some k ->
  is_uint64 (SequenceNumber k) ->
  (forall c, cached st (Address a) (Index k) = Some c -> is_uint64 c /\ c <> max_uint64) ->
  allocated (cached st (Address a) (Index k)) (SequenceNumber k) + 1 < uint64_modulus ->
  exists v st1 st2,
    GetProposalKey a flowClient st = Ok (Some (with_SequenceNumber v k), None) st1 /\
    GetProposalKey a flowClient st1 = Ok (Some (with_SequenceNumber (v + 1) k), None) st2 /\
    SequenceNumber k <= v.
Proof.
  intros Hi Hclient Hk Hr Hc Hbound.
  destruct (rotate_KeyIndex_returns a i Hi) as [a' Hrot].
  destruct (allocated_no_wrap _ _ Hr Hc) as [Hge Hv].
  eexists _, _, _. split; [|split; [|exact Hge]].
  - rewrite GetProposalKey_eq, Hrot, Hclient. simpl. rewrite Hk. reflexivity.
  - rewrite GetProposalKey_eq, Hrot, Hclient. simpl. rewrite Hk.
    rewrite cached_getSeqNum_state_eq. simpl.
    destruct (Z.leb_spec (SequenceNumber k)
                (allocated (cached st (Address a) (Index k)) (SequenceNumber k)));
      [|lia].
    rewrite wrap_uint64_small; [reflexivity|].
    unfold is_uint64 in *. lia.
Qed.

(** The remote ledger reports 9 twice: the calls return 9 and 10. *)
Lemma GetProposalKey_twice_witness :
  exists st1 st2,
    GetProposalKey {| Address := 1%N; PrivateKeyInHex := "key";
                      KeyIndexes := [0]; nextKeyIndexIndex := 0 |}
                   (fun _ => (Some {| Keys := [ {| Index := 0; SequenceNumber := 9 |} ] |}, None))
                   initial_state = Ok (Some {| Index := 0; SequenceNumber := 9 |}, None) st1 /\
    GetProposalKey {| Address := 1%N; PrivateKeyInHex := "key";
                      KeyIndexes := [0]; nextKeyIndexIndex := 0 |}
                   (fun _ => (Some {| Keys := [ {| Index := 0; SequenceNumber := 9 |} ] |}, None))
                   st1 = Ok (Some {| Index := 0; SequenceNumber := 10 |}, None) st2.
Proof.
  destruct (GetProposalKey_twice
              {| Address := 1%N; PrivateKeyInHex := "key";
                 KeyIndexes := [0]; nextKeyIndexIndex := 0 |}
              (fun _ => (Some {| Keys := [ {| Index := 0; SequenceNumber := 9 |} ] |}, None))
              initial_state 0 {| Keys := [ {| Index := 0; SequenceNumber := 9 |} ] |}
              {| Index := 0; SequenceNumber := 9 |})
    as (v & st1 & st2 & H1 & H2 & _).
  - reflexivity.
  - reflexivity.
  - reflexivity.
  - split; by vm_compute.
  - intros c Hc. discriminate Hc.
  - by vm_compute.
  - assert (v = 9) as ->.
    { revert H1. rewrite GetProposalKey_eq. simpl. intros [= <- _]. reflexivity. }
    exists st1, st2. split; [exact H1 | exact H2].
Defined.

End proposal_key_more.

(** ** The signer *)

Section signer.

Context {PrivateKey Signer : Type}.
Context (DecodePrivateKeyHex : string -> PrivateKey + error).
Context (NewNaiveSigner : PrivateKey -> Signer).

(** X12.  The credential of an address is the one of its first
    registration.  After [GetAccount] has registered an address with the
    key [pk], and after any sequence of calls (later registrations of the
    address with other keys among them), [GetSigner] on the registered
    [Account] decodes [pk]: it returns the signer of the decoded key, or the
    decoding error wrapped, and nothing else. *)
Theorem GetSigner_first_credential address pk keyIndexes draw st cs :
  registered st address = None ->
  keyIndexes <> [] ->
  exists a st1,
    GetAccount address pk keyIndexes draw st = Ok a st1 /\
    registered (exec_all cs st1) address = Some a /\
    exists obj,
      heap (exec_all cs st1) !! a = Some obj /\
      GetSigner DecodePrivateKeyHex NewNaiveSigner obj =
      match DecodePrivateKeyHex pk with
      | inr err => (None, Some (Errorf "error in flow_helpers.Account.GetSigner" err))
      | inl p => (Some (NewNaiveSigner p), None)
      end.
Proof.
  intros Hreg Hne.
  assert (0 < len keyIndexes) as Hpos.
  { unfold len. destruct keyIndexes; [done | simpl; lia]. }
  assert (rand_Intn draw (len keyIndexes) = Some (draw mod len keyIndexes)) as Hrand.
  { unfold rand_Intn. destruct (Z.leb_spec (len keyIndexes) 0); [lia | done]. }
  pose proof (GetAccount_fresh address pk keyIndexes draw st _ Hreg Hrand) as Hcall.
  simpl in Hcall.
  eexists _, _. split; [exact Hcall|].
  edestruct (exec_all_keeps_registration cs) as (Hreg' & obj & Hobj & Hsame);
    [| |split; [exact Hreg'|]].
  - unfold registered. simpl. apply lookup_insert_eq.
  - simpl. apply lookup_insert_eq.
  - exists obj. split; [exact Hobj|].
    unfold GetSigner. destruct Hsame as (_ & -> & _). done.
Qed.

End signer.

(** A second registration of address 1 with another key: the signer is still
    the one of the first key. *)
Lemma GetSigner_first_credential_witness :
  exists a st1,
    GetAccount 1%N "first" [0] 0 initial_state = Ok a st1 /\
    exists obj,
      heap (exec_all [Call_GetAccount 1%N "second" [1] 0] st1) !! a = Some obj /\
      GetSigner (fun hex : string => inl hex : string + error) (fun p : string => p) obj =
      (Some "first", None).
Proof.
  destruct (GetSigner_first_credential
              (fun hex : string => inl hex : string + error) (fun p : string => p)
              1%N "first" [0] 0 initial_state [Call_GetAccount 1%N "second" [1] 0])
    as (a & st1 & Hcall & _ & obj & Hobj & Hsigner).
  - reflexivity.
  - discriminate.
  - exists a, st1. split; [exact Hcall|]. exists obj. split; [exact Hobj | exact Hsigner].
Defined.

(** ** Concurrent calls are calls made one after the other *)

Section linearisation.

Context (gs0 : list Goroutine) (st0 : State).

Implicit Types (cfg : Config) (g : Goroutine) (t h : nat) (events : list Z)
  (order : list nat) (s : State).








End linearisation.

Section linearisable.

Implicit Types (cfg : Config) (g : Goroutine) (t : nat) (schedule : list nat).






End linearisable.

(** ** The mutex is always released *)

Section progress.

Implicit Types (cfg : Config) (g : Goroutine) (gs : list Goroutine) (t h : nat)
  (schedule : list nat).








End progress.
